(** * Universal FHEVM SDK: encryption dispatch, decryption, validation,
      client creation and rate limiting.

    A shallow embedding of
      packages/fhevm-sdk/src/core/client.ts
      packages/fhevm-sdk/src/core/encryption.ts
      packages/fhevm-sdk/src/core/decryption.ts
      packages/fhevm-sdk/src/utils/validation.ts
      packages/fhevm-sdk/src/utils/security.ts   (RateLimiter)
    of the package @zama/fhevm-sdk.
    Each TypeScript module is a Rocq [Module] of the same name.  The
    JavaScript runtime (values, numbers, thrown errors, promises) is in
    [Js]; the external collaborators (the fhevmjs instance, the gateway
    reached through [fetch]) are explicit parameters whose calls are
    recorded in a trace. *)

From Stdlib Require Import QArith Qround Ascii.
From stdpp Require Import base strings gmap list numbers pretty.

Set Default Proof Using "Type".
Local Open Scope Z_scope.

(* ================================================================== *)
(** ** The JavaScript runtime the SDK runs on *)
(* ================================================================== *)

Module Js.

(** A JavaScript [number]: every finite double is a rational, so the
    comparisons the SDK performs are exact comparisons on [Q]; the three
    non-finite values are kept apart ([-0] is the rational [0]). *)
Inductive number : Type :=
  | NaN
  | PosInf
  | NegInf
  | Fin (q : Q).

Definition of_Z (z : Z) : number := Fin (inject_Z z).

(** [a <= b] *)
Definition le (a b : number) : bool :=
  match a, b with
  | NaN, _ | _, NaN => false
  | Fin x, Fin y => Qle_bool x y
  | NegInf, _ => true
  | _, PosInf => true
  | _, _ => false
  end.

(** [a < b] *)
Definition lt (a b : number) : bool :=
  match a, b with
  | NaN, _ | _, NaN => false
  | Fin x, Fin y => negb (Qle_bool y x)
  | NegInf, NegInf => false
  | NegInf, _ => true
  | PosInf, _ => false
  | Fin _, PosInf => true
  | Fin _, NegInf => false
  end.

(** [a >= b] and [a > b] *)
Definition ge (a b : number) : bool := le b a.
Definition gt (a b : number) : bool := lt b a.

(** [Number.isInteger]. *)
Definition isInteger (a : number) : bool :=
  match a with
  | Fin q => Qeq_bool q (inject_Z (Qfloor q))
  | _ => false
  end.

(** Runtime values an SDK entry point may be handed.  [VObject] stands for
    a plain object or an array; the code modelled here observes one only
    through the string [ToPrimitive] turns it into, which it carries. *)
Inductive value : Type :=
  | VUndefined
  | VNull
  | VBool (b : bool)
  | VNumber (n : number)
  | VBigInt (z : Z)
  | VString (s : string)
  | VSymbol
  | VObject (prim : string).

Definition typeof (v : value) : string :=
  match v with
  | VUndefined => "undefined"
  | VNull => "object"
  | VBool _ => "boolean"
  | VNumber _ => "number"
  | VBigInt _ => "bigint"
  | VString _ => "string"
  | VSymbol => "symbol"
  | VObject _ => "object"
  end.

(** [s.startsWith(p)] *)
Definition startsWith (s p : string) : bool := String.prefix p s.

(** Thrown values.  Everything the SDK throws is [new Error(msg)]; the
    built-ins it calls throw [TypeError], [RangeError] or [SyntaxError]. *)
Record error : Type := mkError { name : string; message : string }.

Definition Error (msg : string) : error := mkError "Error" msg.

(** [`${e}`] for an error object: [Error.prototype.toString]. *)
Definition error_toString (e : error) : string :=
  if decide (message e = "") then name e
  else name e +:+ ": " +:+ message e.

(** Result of running a piece of code: normal completion or a throw (for
    [async] functions: a resolved or a rejected promise). *)
Inductive outcome (A : Type) : Type :=
  | Returns (a : A)
  | Throws (e : error).
Arguments Returns {A} a.
Arguments Throws {A} e.

Definition is_returns {A} (o : outcome A) : bool :=
  match o with Returns _ => true | Throws _ => false end.

(** The built-in [BigInt(v)].  Parsing a string ([StringToBigInt] of the
    language specification) is left to the runtime, [None] being a failed
    parse; the messages of the built-in errors are the engine's own. *)
Section BigInt.
Context (StringToBigInt : string → option Z).

Definition parse_BigInt (s : string) : outcome Z :=
  match StringToBigInt s with
  | Some z => Returns z
  | None => Throws (mkError "SyntaxError" ("Cannot convert " +:+ s +:+ " to a BigInt"))
  end.

Definition BigInt (v : value) : outcome Z :=
  match v with
  | VBigInt z => Returns z
  | VBool b => Returns (if b then 1 else 0)
  | VNumber n =>
      match n with
      | Fin q =>
          if isInteger n then Returns (Qfloor q)
          else Throws (mkError "RangeError" "The number cannot be converted to a BigInt because it is not an integer")
      | _ => Throws (mkError "RangeError" "The number cannot be converted to a BigInt because it is not an integer")
      end
  | VString s => parse_BigInt s
  | VObject prim => parse_BigInt prim
  | VUndefined => Throws (mkError "TypeError" "Cannot convert undefined to a BigInt")
  | VNull => Throws (mkError "TypeError" "Cannot convert null to a BigInt")
  | VSymbol => Throws (mkError "TypeError" "Cannot convert a Symbol value to a bigint")
  end.
End BigInt.

(** Code that has effects: a state is threaded through, and the code
    completes normally or throws. *)
Definition prog (S A : Type) : Type := S → S * outcome A.

Definition ret {S A} (a : A) : prog S A := λ st, (st, Returns a).
Definition throw {S A} (e : error) : prog S A := λ st, (st, Throws e).
Definition bind {S A B} (m : prog S A) (k : A → prog S B) : prog S B :=
  λ st, match m st with
        | (st', Returns a) => k a st'
        | (st', Throws e) => (st', Throws e)
        end.
(** [try { m } catch (e) { h e }] *)
Definition try_catch {S A} (m : prog S A) (h : error → prog S A) : prog S A :=
  λ st, match m st with
        | (st', Returns a) => (st', Returns a)
        | (st', Throws e) => h e st'
        end.
(** A function that only computes, used inside effectful code. *)
Definition lift {S A} (o : outcome A) : prog S A := λ st, (st, o).

(** An external collaborator is known by the calls made on it: the state is
    the list of calls so far, and the collaborator answers each call
    knowing all of them. *)
Definition call {E A} (respond : list E → outcome A) (c : E) : prog (list E) A :=
  λ tr, let tr' := tr ++ [c] in (tr', respond tr').

(** Run from an empty history. *)
Definition calls {E A} (m : prog (list E) A) : list E := (m []).1.
Definition result {E A} (m : prog (list E) A) : outcome A := (m []).2.

(** *** The fetch API, as far as the SDK uses it *)

Record Request : Type := {
  url : string;
  method : string;
  headers : list (string * string);
  body : list (string * string);   (* JSON.stringify of an object of strings *)
}.

(** What [await response.json()] gives: [null], another primitive or an
    array (neither has the properties read here), or an object. *)
Inductive json : Type :=
  | JsonNull
  | JsonOther
  | JsonObject (props : gmap string value).

(** [data.key] *)
Definition get (data : json) (key : string) : outcome value :=
  match data with
  | JsonNull =>
      Throws (mkError "TypeError" ("Cannot read properties of null (reading '" +:+ key +:+ "')"))
  | JsonOther => Returns VUndefined
  | JsonObject props => Returns (default VUndefined (props !! key))
  end.

Record Response : Type := {
  ok : bool;
  statusText : string;
  response_json : outcome json;    (* a body that is not JSON rejects *)
}.

(** The network behind [fetch]: a rejected promise is a transport failure. *)
Definition network : Type := list Request → outcome Response.

Definition fetch (net : network) (r : Request) : prog (list Request) Response :=
  call net r.

(** *** Strings of digits *)

(** The digit of [d], for [0 <= d < 16], as [toString(16)] writes it. *)
Definition hex_digit (d : Z) : ascii :=
  ascii_of_nat (Z.to_nat (if d <? 10 then 48 + d else 87 + d)).

(** The hexadecimal digits of a positive [n] in front of [acc]; [fuel]
    bounds the number of digits. *)
Fixpoint hex_digits (fuel : nat) (n : Z) (acc : string) : string :=
  match fuel with
  | O => acc
  | S fuel' =>
      let acc' := String (hex_digit (n mod 16)) acc in
      if n / 16 =? 0 then acc' else hex_digits fuel' (n / 16) acc'
  end.

(** [z.toString(16)] for a bigint [z]. *)
Definition toString16 (z : Z) : string :=
  if z =? 0 then "0"
  else if z <? 0 then
    String "-"%char (hex_digits (S (Z.to_nat (Z.log2 (- z)))) (- z) "")
  else hex_digits (S (Z.to_nat (Z.log2 z))) z "".

Fixpoint repeat_char (n : nat) (c : ascii) : string :=
  match n with
  | O => ""
  | S n' => String c (repeat_char n' c)
  end.

(** [s.padStart(targetLength, c)] for a filler of one character. *)
Definition padStart (targetLength : nat) (c : ascii) (s : string) : string :=
  repeat_char (targetLength - String.length s) c +:+ s.

End Js.

Notation "'let*' x := m 'in' k" := (Js.bind m (λ x, k))
  (at level 10, x name, m at level 100, k at level 200, only parsing).
Notation "m ;;; k" := (Js.bind m (λ _, k))
  (at level 100, right associativity, only parsing).

(* ================================================================== *)
(** ** fhevmjs, the external cryptographic library *)
(* ================================================================== *)

Module Fhevmjs.
Import Js.

(** The ciphertext and proof [input.encrypt()] resolves to. *)
Record EncryptedInput : Type := {
  data : list Z;          (* Uint8Array *)
  signature : string;
}.

(** Calls on an instance and on the input builder it returns. *)
Inductive CryptoCall : Type :=
  | createEncryptedInput (aclAddress : string) (userAddress : option string)
  | add8 (v : number)
  | add16 (v : number)
  | add32 (v : number)
  | add64 (v : Z)
  | addBool (v : bool)
  | addAddress (v : string)
  | input_encrypt.

(** An instance: given the calls made on it so far, the last one included,
    it throws or returns ([input.encrypt()] returns the ciphertext, the
    other calls return nothing the SDK uses). *)
Record FhevmInstance : Type := {
  getPublicKey : string;
  respond : list CryptoCall → outcome EncryptedInput;
}.

(** The argument of [createInstance]. *)
Record FhevmInstanceConfig : Type := {
  ic_chainId : Z;
  ic_publicKey : value;
  ic_gatewayUrl : string;
  ic_aclAddress : string;
}.

End Fhevmjs.

(* ================================================================== *)
(** ** utils/validation.ts *)
(* ================================================================== *)

Module Validation.
Import Js.

(** A synchronous function that may throw: sequencing of [outcome]s. *)
Definition and_then {A B} (o : outcome A) (k : A → outcome B) : outcome B :=
  match o with
  | Returns a => k a
  | Throws e => Throws e
  end.

Record range : Type := { min : Z; max : Z }.

(** [FHE_RANGES], keyed by the type's name. *)
Definition FHE_RANGES : gmap string range :=
  list_to_map
    [ ("uint8", {| min := 0; max := 255 |});
      ("uint16", {| min := 0; max := 65535 |});
      ("uint32", {| min := 0; max := 4294967295 |});
      ("uint64", {| min := 0; max := 18446744073709551615 |});
      ("bool", {| min := 0; max := 1 |}) ].

Definition isHexDigit (c : Ascii.ascii) : bool :=
  let n := Ascii.nat_of_ascii c in
  ((48 <=? n) && (n <=? 57) || (65 <=? n) && (n <=? 70)
   || (97 <=? n) && (n <=? 102))%nat.

Fixpoint all_chars (p : Ascii.ascii → bool) (s : string) : bool :=
  match s with
  | EmptyString => true
  | String c s' => p c && all_chars p s'
  end.

(** [/^0x[a-fA-F0-9]{40}$/.test(s)] *)
Definition address_regex_test (s : string) : bool :=
  match s with
  | String "0"%char (String "x"%char digits) =>
      (String.length digits =? 40)%nat && all_chars isHexDigit digits
  | _ => false
  end.

(** [v === z] for a number literal [z]. *)
Definition strict_eq_number (v : value) (z : Z) : bool :=
  match v with
  | VNumber (Fin q) => Qeq_bool q (inject_Z z)
  | _ => false
  end.

Section WithRuntime.
Context (StringToBigInt : string → option Z).

(** [validateFheValue(value, type)]: returns nothing, throws on failure. *)
Definition validateFheValue (v : value) (type : string) : outcome unit :=
  if decide (type = "bool") then
    if negb (bool_decide (typeof v = "boolean"))
       && negb (strict_eq_number v 0) && negb (strict_eq_number v 1)
    then Throws (Error "Boolean value must be true, false, 0, or 1")
    else Returns ()
  else if decide (type = "address") then
    match v with
    | VString s =>
        if negb (address_regex_test s)
        then Throws (Error "Invalid Ethereum address format")
        else Returns ()
    | _ => Throws (Error "Address value must be a string")
    end
  else
    and_then (BigInt StringToBigInt v) (λ bigValue,
      match FHE_RANGES !! type with
      | None => Throws (Error ("Unknown FHE type: " +:+ type))
      | Some r =>
          if (bigValue <? min r) || (bigValue >? max r) then
            Throws (Error ("Value " +:+ pretty bigValue +:+ " out of range for "
                           +:+ type +:+ " (" +:+ pretty (min r) +:+ " - "
                           +:+ pretty (max r) +:+ ")"))
          else Returns ()
      end).

(** [inferFheType(value)] *)
Definition inferFheType (v : value) : outcome string :=
  match v with
  | VBool _ => Returns "bool"
  | VString s =>
      if address_regex_test s then Returns "address"
      else Throws (Error "String value must be a valid Ethereum address")
  | _ =>
      and_then (BigInt StringToBigInt v) (λ bigValue,
        if bigValue <? 0 then Throws (Error "Negative values are not supported")
        else if bigValue <=? 255 then Returns "uint8"
        else if bigValue <=? 65535 then Returns "uint16"
        else if bigValue <=? 4294967295 then Returns "uint32"
        else if bigValue <=? 18446744073709551615 then Returns "uint64"
        else Throws (Error "Value too large for supported FHE types"))
  end.

(** [validateEncryptedHandle(handle)]: the handle as a bigint, or a throw. *)
Definition validateEncryptedHandle (handle : value) : outcome Z :=
  match handle with
  | VNull | VUndefined => Throws (Error "Encrypted handle is required")
  | _ =>
      match BigInt StringToBigInt handle with
      | Returns z => Returns z
      | Throws _ => Throws (Error "Invalid encrypted handle format")
      end
  end.
(** [validateHandleBatch(handles)]; [None] is an argument that is not an
    array.  The callback of [map] runs on the handles in order and the
    first throw ends the call. *)
Fixpoint validateHandles (index : nat) (handles : list value) : outcome (list Z) :=
  match handles with
  | [] => Returns []
  | handle :: rest =>
      match validateEncryptedHandle handle with
      | Returns z =>
          and_then (validateHandles (S index) rest) (λ zs, Returns (z :: zs))
      | Throws error =>
          Throws (Error ("Invalid handle at index " +:+ pretty index +:+ ": "
                         +:+ error_toString error))
      end
  end.

Definition validateHandleBatch (handles : option (list value)) : outcome (list Z) :=
  match handles with
  | None => Throws (Error "Handles must be an array")
  | Some [] => Throws (Error "Handle array cannot be empty")
  | Some hs => validateHandles 0 hs
  end.
End WithRuntime.

(** The argument of [validateDecryptionPermit(permit: any)]: a falsy value,
    or a value with the given [signature] and [publicKey] properties
    ([VUndefined] for a property it does not have). *)
Inductive any_permit : Type :=
  | FalsyPermit
  | PermitLike (signature publicKey : value).

(** [typeof x !== 'string' || x.length === 0] *)
Definition not_nonempty_string (x : value) : bool :=
  match x with
  | VString s => (String.length s =? 0)%nat
  | _ => true
  end.

Definition validateDecryptionPermit (permit : any_permit) : outcome unit :=
  match permit with
  | FalsyPermit => Throws (Error "Decryption permit is required")
  | PermitLike signature publicKey =>
      if not_nonempty_string signature then
        Throws (Error "Permit signature is required")
      else if not_nonempty_string publicKey then
        Throws (Error "Permit public key is required")
      else Returns ()
  end.

End Validation.

(* ================================================================== *)
(** ** core/client.ts *)
(* ================================================================== *)

Module Client.
Import Js Fhevmjs.

Record NetworkConfig : Type := {
  chainId : Z;
  rpcUrl : string;
  gatewayUrl : string;
  aclAddress : string;
}.

(** A [NetworkConfig] is a JavaScript object: it is held by reference, and
    an assignment to one of its properties is seen through every reference
    to it.  The objects live in a heap. *)
Abbreviation ref := positive (only parsing).

Definition sepolia : ref := 1%positive.
Definition localhost : ref := 2%positive.

(** [NETWORKS]: the registry holds a reference to each stored entry.  Only
    its own properties are modelled, not those a plain object inherits. *)
Definition NETWORKS : gmap string ref :=
  {[ "sepolia" := sepolia; "localhost" := localhost ]}.

(** The entries as the module's initialiser writes them. *)
Definition initial_heap : gmap ref NetworkConfig :=
  {[ sepolia := {| chainId := 11155111;
                   rpcUrl := "https://rpc.sepolia.org";
                   gatewayUrl := "https://gateway.zama.ai";
                   aclAddress := "0x..." |};
     localhost := {| chainId := 31337;
                     rpcUrl := "http://localhost:8545";
                     gatewayUrl := "http://localhost:8080";
                     aclAddress := "0x..." |} ]}.

(** [config.network]: a name, or a [NetworkConfig] object of the caller's. *)
Inductive network_option : Type :=
  | NetworkName (name : string)
  | NetworkObject (r : ref).

Record FhevmClientConfig : Type := {
  cfg_network : network_option;
  cfg_provider : bool;               (* is [config.provider] given? *)
  cfg_privateKey : option string;
  cfg_gatewayUrl : option string;
  cfg_aclAddress : option string;
}.

Inductive Provider : Type :=
  | BrowserProvider
  | JsonRpcProvider (url : string).

(** [FhevmClient].  From [createFhevmClient], [network] is a reference
    ([N := ref]); encryption and decryption read the properties of the
    object it refers to ([N := NetworkConfig], see [deref]). *)
Record FhevmClient (N : Type) : Type := {
  instance : FhevmInstance;
  provider : Provider;
  network : N;
  address : option string;
}.
Arguments instance {N} _.
Arguments provider {N} _.
Arguments network {N} _.
Arguments address {N} _.

Definition deref (h : gmap ref NetworkConfig) (c : FhevmClient ref)
  : option (FhevmClient NetworkConfig) :=
  cfg ← h !! network c;
  Some {| instance := instance c; provider := provider c;
          network := cfg; address := address c |}.

(** What [createFhevmClient] calls outside the SDK. *)
Record environment : Type := {
  initFhevm : outcome unit;
  signer_getAddress : outcome string;   (* provider.getSigner(), then getAddress() *)
  net : Js.network;
  createInstance : FhevmInstanceConfig → outcome FhevmInstance;
}.

(** The module's state: the heap of configurations, the module variable
    [fhevmInitialized], and the requests sent so far. *)
Record state : Type := {
  heap : gmap ref NetworkConfig;
  fhevmInitialized : bool;
  sent : list Request;
}.

Definition initial_state : state :=
  {| heap := initial_heap; fhevmInitialized := false; sent := [] |}.

Definition set_heap (f : gmap ref NetworkConfig → gmap ref NetworkConfig)
  : prog state unit :=
  λ st, ({| heap := f (heap st); fhevmInitialized := fhevmInitialized st;
            sent := sent st |}, Returns ()).

(** Read the object behind a reference.  A reference always has an object
    in JavaScript; the [None] case is there for totality only. *)
Definition read (r : ref) : prog state NetworkConfig :=
  λ st, match heap st !! r with
        | Some cfg => (st, Returns cfg)
        | None => (st, Throws (mkError "ReferenceError" "no such object"))
        end.

Definition fetch_st (env : environment) (r : Request) : prog state Response :=
  λ st, let '(tr, o) := fetch (net env) r (sent st) in
        ({| heap := heap st; fhevmInitialized := fhevmInitialized st;
            sent := tr |}, o).

Definition initializeFhevm (env : environment) : prog state unit :=
  λ st, if fhevmInitialized st then (st, Returns ())
        else match initFhevm env with
             | Returns _ =>
                 ({| heap := heap st; fhevmInitialized := true;
                     sent := sent st |}, Returns ())
             | Throws e => (st, Throws e)
             end.

Definition fetchPublicKey (env : environment) (gatewayUrl : string)
  : prog state value :=
  try_catch
    (let* response :=
       fetch_st env {| url := gatewayUrl +:+ "/publicKey"; method := "GET";
                       headers := []; body := [] |} in
     if negb (ok response) then
       throw (Error ("Failed to fetch public key: " +:+ statusText response))
     else
       let* data := lift (response_json response) in
       lift (get data "publicKey"))
    (λ error, throw (Error ("Failed to fetch public key from gateway: "
                            +:+ error_toString error))).

(** [if (s)] for an optional string property. *)
Definition given (s : option string) : option string :=
  match s with
  | Some v => if decide (v = "") then None else Some v
  | None => None
  end.

Definition createFhevmClient (env : environment) (config : FhevmClientConfig)
  : prog state (FhevmClient ref) :=
  initializeFhevm env;;;
  let* networkConfig :=
    match cfg_network config with
    | NetworkName name =>
        match NETWORKS !! name with
        | Some r => ret r
        | None => throw (Error ("Unknown network: " +:+ name))
        end
    | NetworkObject r => ret r
    end in
  match given (cfg_gatewayUrl config) with
  | Some g =>
      set_heap (alter (λ c, {| chainId := chainId c; rpcUrl := rpcUrl c;
                               gatewayUrl := g; aclAddress := aclAddress c |})
                      networkConfig)
  | None => ret ()
  end;;;
  match given (cfg_aclAddress config) with
  | Some a =>
      set_heap (alter (λ c, {| chainId := chainId c; rpcUrl := rpcUrl c;
                               gatewayUrl := gatewayUrl c; aclAddress := a |})
                      networkConfig)
  | None => ret ()
  end;;;
  let* cfg := read networkConfig in
  let* pa :=
    match given (cfg_privateKey config) with
    | Some _ => ret (JsonRpcProvider (rpcUrl cfg), None)
    | None =>
        if cfg_provider config then
          let* a := lift (signer_getAddress env) in
          ret (BrowserProvider, Some a)
        else ret (JsonRpcProvider (rpcUrl cfg), None)
    end in
  let* publicKey := fetchPublicKey env (gatewayUrl cfg) in
  let* inst :=
    lift (createInstance env {| ic_chainId := chainId cfg;
                                ic_publicKey := publicKey;
                                ic_gatewayUrl := gatewayUrl cfg;
                                ic_aclAddress := aclAddress cfg |}) in
  ret {| instance := inst; provider := pa.1; network := networkConfig;
         address := pa.2 |}.

(** [getNetwork(client)]: the object itself, not a copy. *)
Definition getNetwork (client : FhevmClient ref) : ref := network client.

End Client.

(* ================================================================== *)
(** ** core/encryption.ts *)
(* ================================================================== *)

Module Encryption.
Import Js Fhevmjs.

Abbreviation client := (Client.FhevmClient Client.NetworkConfig) (only parsing).

(** The state of an encryption is the list of calls made on the instance. *)
Abbreviation crypto := (prog (list CryptoCall)) (only parsing).

(** One call on [client.instance] or on the input builder. *)
Definition on_instance (c : client) (op : CryptoCall) : crypto EncryptedInput :=
  call (respond (Client.instance c)) op.

(** [client.instance.createEncryptedInput(client.network.aclAddress, client.address!)] *)
Definition new_input (c : client) : crypto EncryptedInput :=
  on_instance c (createEncryptedInput (Client.aclAddress (Client.network c))
                                      (Client.address c)).

Definition encryptUint8 (c : client) (v : number) : crypto EncryptedInput :=
  if lt v (of_Z 0) || gt v (of_Z 255) then
    throw (Error "Value must be between 0 and 255 for uint8")
  else
    new_input c;;; on_instance c (add8 v);;; on_instance c input_encrypt.

Definition encryptUint16 (c : client) (v : number) : crypto EncryptedInput :=
  if lt v (of_Z 0) || gt v (of_Z 65535) then
    throw (Error "Value must be between 0 and 65535 for uint16")
  else
    new_input c;;; on_instance c (add16 v);;; on_instance c input_encrypt.

Definition encryptUint32 (c : client) (v : number) : crypto EncryptedInput :=
  if lt v (of_Z 0) || gt v (of_Z 4294967295) then
    throw (Error "Value must be between 0 and 4294967295 for uint32")
  else
    new_input c;;; on_instance c (add32 v);;; on_instance c input_encrypt.

Definition encryptUint64 (c : client) (v : Z) : crypto EncryptedInput :=
  if (v <? 0) || (v >? 18446744073709551615) then
    throw (Error "Value must be between 0 and 2^64-1 for uint64")
  else
    new_input c;;; on_instance c (add64 v);;; on_instance c input_encrypt.

Definition encryptBool (c : client) (v : bool) : crypto EncryptedInput :=
  new_input c;;; on_instance c (addBool v);;; on_instance c input_encrypt.

Definition encryptAddress (c : client) (addr : string) : crypto EncryptedInput :=
  if negb (startsWith addr "0x") || negb (String.length addr =? 42)%nat then
    throw (Error "Invalid Ethereum address format")
  else
    new_input c;;; on_instance c (addAddress addr);;; on_instance c input_encrypt.

(** [encrypt]: automatic type detection, on [typeof value] first. *)
Definition encrypt (c : client) (v : value) : crypto EncryptedInput :=
  match v with
  | VBool b => encryptBool c b
  | VString s =>
      if startsWith s "0x" then encryptAddress c s
      else throw (Error ("Unsupported value type for encryption: " +:+ typeof v))
  | VBigInt z => encryptUint64 c z
  | VNumber n =>
      if ge n (of_Z 0) && le n (of_Z 255) then encryptUint8 c n
      else if ge n (of_Z 0) && le n (of_Z 65535) then encryptUint16 c n
      else if ge n (of_Z 0) && le n (of_Z 4294967295) then encryptUint32 c n
      else throw (Error "Number value out of range for uint32, use bigint for uint64")
  | _ => throw (Error ("Unsupported value type for encryption: " +:+ typeof v))
  end.

(** The calls of one typed encryption that the instance lets through: a new
    input builder, one addition, [encrypt()]. *)
Definition path (c : client) (add : CryptoCall) : list CryptoCall :=
  [createEncryptedInput (Client.aclAddress (Client.network c)) (Client.address c);
   add; input_encrypt].

(** What the instance makes of such a path: the first call it refuses
    stops the encryption, otherwise its ciphertext is the result. *)
Definition through (c : client) (add : CryptoCall)
  : list CryptoCall * outcome EncryptedInput :=
  (new_input c;;; on_instance c add;;; on_instance c input_encrypt) [].

End Encryption.

(* ================================================================== *)
(** ** core/decryption.ts *)
(* ================================================================== *)

Module Decryption.
Import Js Fhevmjs.

Abbreviation client := (Client.FhevmClient Client.NetworkConfig) (only parsing).

(** [DecryptionPermit] declares [signature] and [publicKey].  The object a
    caller passes may have more properties (a cached permit has
    [expiresAt], a time in milliseconds); none is read in this module. *)
Record DecryptionPermit : Type := {
  signature : string;
  publicKey : string;
  expiresAt : option Z;
}.

Definition json_headers : list (string * string) :=
  [("Content-Type", "application/json")].

Section WithGateway.
Context (net : Js.network) (StringToBigInt : string → option Z).

(** [decrypt(client, handle, permit)] *)
Definition decrypt (c : client) (handle : Z) (permit : DecryptionPermit)
  : prog (list Request) Z :=
  try_catch
    (let* response :=
       fetch net {| url := Client.gatewayUrl (Client.network c) +:+ "/decrypt";
                    method := "POST";
                    headers := json_headers;
                    body := [("handle", pretty handle);
                             ("signature", signature permit);
                             ("publicKey", publicKey permit)] |} in
     if negb (ok response) then
       throw (Error ("Decryption failed: " +:+ statusText response))
     else
       let* data := lift (response_json response) in
       let* v := lift (get data "value") in
       lift (BigInt StringToBigInt v))
    (λ error, throw (Error ("Failed to decrypt value: " +:+ error_toString error))).

(** [handles.map((handle) => decrypt(client, handle, permit))]: every
    decryption is started, in the order of the handles, whatever becomes
    of the others; each ends up resolved or rejected. *)
Fixpoint decryptionPromises (c : client) (handles : list Z)
    (permit : DecryptionPermit) (tr : list Request)
  : list Request * list (outcome Z) :=
  match handles with
  | [] => (tr, [])
  | handle :: rest =>
      let '(tr1, o) := decrypt c handle permit tr in
      let '(tr2, os) := decryptionPromises c rest permit tr1 in
      (tr2, o :: os)
  end.

(** [Promise.all]: rejected as soon as one promise is, with that
    promise's reason; [settled] lists the promises (by index) in the
    order in which they settle, which is up to the network.  When none
    is rejected, the values in the order of the promises. *)
Definition rejections {A} (settled : list nat) (ps : list (outcome A))
  : list error :=
  omap (λ i, match ps !! i with
             | Some (Throws e) => Some e
             | _ => None
             end) (settled ++ seq 0 (length ps)).

Definition values {A} (ps : list (outcome A)) : list A :=
  omap (λ p, match p with Returns a => Some a | Throws _ => None end) ps.

Definition Promise_all {A} (settled : list nat) (ps : list (outcome A))
  : outcome (list A) :=
  match rejections settled ps with
  | e :: _ => Throws e
  | [] => Returns (values ps)
  end.

(** [decryptBatch(client, handles, permit)] *)
Definition decryptBatch (settled : list nat) (c : client) (handles : list Z)
    (permit : DecryptionPermit)
  : prog (list Request) (list Z) :=
  λ tr, let '(tr', ps) := decryptionPromises c handles permit tr in
        (tr', Promise_all settled ps).

(** [decryptBool] *)
Definition decryptBool (c : client) (handle : Z) (permit : DecryptionPermit)
  : prog (list Request) bool :=
  let* v := decrypt c handle permit in
  ret (negb (v =? 0)).

(** [data.valid === true] *)
Definition is_true (v : value) : bool :=
  match v with VBool true => true | _ => false end.

(** [isPermitValid(client, permit)]; the handler also logs the error to
    the console. *)
Definition isPermitValid (c : client) (permit : DecryptionPermit)
  : prog (list Request) bool :=
  try_catch
    (let* response :=
       fetch net {| url := Client.gatewayUrl (Client.network c) +:+ "/permit/validate";
                    method := "POST";
                    headers := json_headers;
                    body := [("signature", signature permit);
                             ("publicKey", publicKey permit)] |} in
     if negb (ok response) then ret false
     else
       let* data := lift (response_json response) in
       let* v := lift (get data "valid") in
       ret (is_true v))
    (λ error, ret false).
(** [decryptAddress] *)
Definition decryptAddress (c : client) (handle : Z) (permit : DecryptionPermit)
  : prog (list Request) string :=
  let* v := decrypt c handle permit in
  ret ("0x" +:+ padStart 40 "0"%char (toString16 v)).

(** [decryptUint64] *)
Definition decryptUint64 (c : client) (handle : Z) (permit : DecryptionPermit)
  : prog (list Request) Z :=
  decrypt c handle permit.

(** [revokePermit(client, permit)] *)
Definition revokePermit (c : client) (permit : DecryptionPermit)
  : prog (list Request) unit :=
  try_catch
    (let* response :=
       fetch net {| url := Client.gatewayUrl (Client.network c) +:+ "/permit/revoke";
                    method := "POST";
                    headers := json_headers;
                    body := [("signature", signature permit);
                             ("publicKey", publicKey permit)] |} in
     if negb (ok response) then
       throw (Error ("Failed to revoke permit: " +:+ statusText response))
     else ret ())
    (λ error, throw (Error ("Failed to revoke permit: " +:+ error_toString error))).
End WithGateway.

(** A permit seen as the [any] that [validateDecryptionPermit] takes. *)
Definition as_any (permit : DecryptionPermit) : Validation.any_permit :=
  Validation.PermitLike (VString (signature permit)) (VString (publicKey permit)).

End Decryption.

(* ================================================================== *)
(** ** utils/security.ts *)
(* ================================================================== *)

Module Security.
Import Js.

(** [class RateLimiter]: the timestamps of the accepted requests, oldest
    first, and the two constructor arguments. *)
Record RateLimiter : Type := {
  requests : list Z;
  maxRequests : number;
  windowMs : number;
}.

(** [new RateLimiter(maxRequests, windowMs)] *)
Definition new (maxRequests windowMs : number) : RateLimiter :=
  {| requests := []; maxRequests := maxRequests; windowMs := windowMs |}.

(** [isAllowed()], with [now] the value [Date.now()] returns. *)
Definition isAllowed (now : Z) (rl : RateLimiter) : RateLimiter * bool :=
  let kept := List.filter (λ time, lt (of_Z (now - time)) (windowMs rl))
                          (requests rl) in
  if lt (of_Z (Z.of_nat (length kept))) (maxRequests rl) then
    ({| requests := kept ++ [now]; maxRequests := maxRequests rl;
        windowMs := windowMs rl |}, true)
  else
    ({| requests := kept; maxRequests := maxRequests rl;
        windowMs := windowMs rl |}, false).

(** [reset()] *)
Definition reset (rl : RateLimiter) : RateLimiter :=
  {| requests := []; maxRequests := maxRequests rl; windowMs := windowMs rl |}.

(** The limiter after [isAllowed()] at each of the times, in turn, and the
    answer of each call. *)
Fixpoint isAllowed_each (times : list Z) (rl : RateLimiter)
  : RateLimiter * list bool :=
  match times with
  | [] => (rl, [])
  | now :: rest =>
      let '(rl1, b) := isAllowed now rl in
      let '(rl2, bs) := isAllowed_each rest rl1 in
      (rl2, b :: bs)
  end.

(** [isValidAddress(address)] *)
Definition isValidAddress (address : string) : bool :=
  Validation.address_regex_test address.

(** [a.charCodeAt(i)] *)
Definition charCode (c : ascii) : Z := Z.of_nat (nat_of_ascii c).

(** The loop of [secureCompare] over two strings of one length: [result]
    accumulates, by or, the exclusive or of the character codes. *)
Fixpoint secureCompare_loop (a b : string) (result : Z) : Z :=
  match a, b with
  | String x a', String y b' =>
      secureCompare_loop a' b' (Z.lor result (Z.lxor (charCode x) (charCode y)))
  | _, _ => result
  end.

(** [secureCompare(a, b)] *)
Definition secureCompare (a b : string) : bool :=
  if negb (String.length a =? String.length b)%nat then false
  else secureCompare_loop a b 0 =? 0.

(** A character of the class the expression of [sanitizeInput] matches:
    less-than, greater-than, apostrophe and quotation mark. *)
Definition is_markup (c : ascii) : bool :=
  let n := nat_of_ascii c in
  ((n =? 60) || (n =? 62) || (n =? 39) || (n =? 34))%nat.

(** [sanitizeInput(input)]: every such character replaced by nothing. *)
Fixpoint sanitizeInput (input : string) : string :=
  match input with
  | EmptyString => EmptyString
  | String c rest =>
      if is_markup c then sanitizeInput rest
      else String c (sanitizeInput rest)
  end.





(** [class SecureStorage].  [localStorage] is a map from keys to strings,
    or is not defined at all ([None]); [JSON.stringify] and [JSON.parse]
    are the runtime's, over the values [A] a caller stores ([stringify]
    throws for a bigint or a cycle; what it gives for [undefined] is
    stored as the string ["undefined"]). *)
Section SecureStorage.
Context {A : Type}.
Context (stringify : A → outcome string) (parse : string → outcome A).

Abbreviation localStorage := (option (gmap string string)) (only parsing).

(** [set(key, value)] *)
Definition storage_set (prefix key : string) (v : A) (store : localStorage)
  : localStorage * outcome unit :=
  let fullKey := prefix +:+ key in
  match stringify v with
  | Throws e => (store, Throws e)
  | Returns serialized =>
      match store with
      | Some items => (Some (<[fullKey := serialized]> items), Returns ())
      | None => (None, Returns ())
      end
  end.

(** [get(key)]: the stored value, or [null] ([None]). *)
Definition storage_get (prefix key : string) (store : localStorage)
  : outcome (option A) :=
  let fullKey := prefix +:+ key in
  match store with
  | Some items =>
      match items !! fullKey with
      | Some item =>
          if decide (item = "") then Returns None
          else match parse item with
               | Returns v => Returns (Some v)
               | Throws e => Throws e
               end
      | None => Returns None
      end
  | None => Returns None
  end.

(** [remove(key)] *)
Definition storage_remove (prefix key : string) (store : localStorage)
  : localStorage :=
  let fullKey := prefix +:+ key in
  match store with
  | Some items => Some (delete fullKey items)
  | None => None
  end.

(** [clear()]: over the keys the storage has when it is called. *)
Definition storage_clear (prefix : string) (store : localStorage) : localStorage :=
  match store with
  | Some items =>
      Some (foldr (λ key items', if startsWith key prefix
                                 then delete key items' else items')
                  items (elements (dom items)))
  | None => None
  end.
End SecureStorage.

End Security.

(* ================================================================== *)
(** ** Predicates and sample inputs used in the statements *)
(* ================================================================== *)

Module Samples.
Import Js Fhevmjs.

(** An effectful computation that completes normally from no history. *)
Definition succeeds {E A} (m : prog (list E) A) : Prop :=
  is_returns (result m) = true.

(** It throws [new Error(msg)] and has called nothing. *)
Definition fails_before_any_call {E A} (m : prog (list E) A) (msg : string) : Prop :=
  m [] = ([], Throws (Error msg)).

(** The instance of a client refuses no call. *)
Definition accepting (c : Encryption.client) : Prop :=
  ∀ tr, is_returns (respond (Client.instance c) tr) = true.

(** The shape every typed encryption has: a guard, then the three calls
    on the instance. *)
Definition guarded (c : Encryption.client) (refuse : bool) (msg : string)
    (add : CryptoCall) : Encryption.crypto EncryptedInput :=
  if refuse then throw (Error msg)
  else Encryption.new_input c;;; Encryption.on_instance c add;;;
       Encryption.on_instance c input_encrypt.

(** Additions narrower than 64 bits. *)
Definition is_narrow_add (op : CryptoCall) : bool :=
  match op with
  | add8 _ | add16 _ | add32 _ => true
  | _ => false
  end.

Definition ciphertext : EncryptedInput :=
  {| data := [1; 2; 3]; signature := "0xproof" |}.

Definition accepting_instance : FhevmInstance :=
  {| getPublicKey := "0xpk"; respond := λ _, Returns ciphertext |}.

Definition local_network : Client.NetworkConfig :=
  {| Client.chainId := 31337;
     Client.rpcUrl := "http://localhost:8545";
     Client.gatewayUrl := "http://localhost:8080";
     Client.aclAddress := "0x..." |}.

Definition sample_client : Encryption.client :=
  {| Client.instance := accepting_instance;
     Client.provider := Client.JsonRpcProvider "http://localhost:8545";
     Client.network := local_network;
     Client.address := Some "0x00000000000000000000000000000000000000aa" |}.

(** 42 characters, begins with [0x], and not one hexadecimal digit. *)
Definition not_hex_address : string :=
  "0xzzzzzzzzzzzzzzzzzzzzzzzzzzzzzzzzzzzzzzzz".

(** A runtime whose [StringToBigInt] reads unsigned decimal literals (and
    the empty string as zero): enough for the sample gateways below. *)
Fixpoint digits_value (s : string) (acc : Z) : option Z :=
  match s with
  | EmptyString => Some acc
  | String ch s' =>
      let n := nat_of_ascii ch in
      if ((48 <=? n) && (n <=? 57))%nat
      then digits_value s' (10 * acc + (Z.of_nat n - 48))
      else None
  end.
Definition decimal_StringToBigInt (s : string) : option Z := digits_value s 0.

(** A gateway that answers every request with status 200 and the body
    [{ "value": "42", "valid": true }]. *)
Definition obliging_gateway : Js.network :=
  λ _, Returns {| ok := true; statusText := "OK";
                  response_json :=
                    Returns (JsonObject {[ "value" := VString "42";
                                           "valid" := VBool true ]}) |}.

(** A gateway that refuses the handle 13 and decrypts any other to 42. *)
Definition picky_gateway : Js.network :=
  λ tr, match last tr with
        | Some r =>
            if bool_decide (("handle", "13") ∈ body r) then
              Returns {| ok := false; statusText := "Forbidden";
                         response_json := Returns JsonNull |}
            else obliging_gateway tr
        | None => obliging_gateway tr
        end.

(** A permit that expired at time 1000. *)
Definition expired_permit : Decryption.DecryptionPermit :=
  {| Decryption.signature := "0xsigned";
     Decryption.publicKey := "0xpk";
     Decryption.expiresAt := Some 1000 |}.

(** A permit with an empty signature. *)
Definition unsigned_permit : Decryption.DecryptionPermit :=
  {| Decryption.signature := "";
     Decryption.publicKey := "0xpk";
     Decryption.expiresAt := None |}.

(** The request [decrypt] sends, and the one [isPermitValid] sends. *)
Definition decrypt_request (c : Decryption.client) (handle : Z)
    (permit : Decryption.DecryptionPermit) : Request :=
  {| url := Client.gatewayUrl (Client.network c) +:+ "/decrypt";
     method := "POST";
     headers := [("Content-Type", "application/json")];
     body := [("handle", pretty handle);
              ("signature", Decryption.signature permit);
              ("publicKey", Decryption.publicKey permit)] |}.

Definition validate_request (c : Decryption.client)
    (permit : Decryption.DecryptionPermit) : Request :=
  {| url := Client.gatewayUrl (Client.network c) +:+ "/permit/validate";
     method := "POST";
     headers := [("Content-Type", "application/json")];
     body := [("signature", Decryption.signature permit);
              ("publicKey", Decryption.publicKey permit)] |}.

(** What the gateway's answer to a validation request says: the response
    is ok, its body is JSON, and the body's [valid] is [true]. *)
Definition says_valid (answer : outcome Response) : bool :=
  match answer with
  | Returns response =>
      ok response &&
      match response_json response with
      | Returns data =>
          match get data "valid" with
          | Returns v => Decryption.is_true v
          | Throws _ => false
          end
      | Throws _ => false
      end
  | Throws _ => false
  end.

(** An environment in which every external call of [createFhevmClient]
    goes well. *)
Definition working_environment : Client.environment :=
  {| Client.initFhevm := Returns ();
     Client.signer_getAddress := Returns "0x00000000000000000000000000000000000000aa";
     Client.net := λ _, Returns {| ok := true; statusText := "OK";
                                   response_json :=
                                     Returns (JsonObject {[ "publicKey" := VString "0xpk" ]}) |};
     Client.createInstance := λ _, Returns accepting_instance |}.

(** [{ network: 'sepolia', gatewayUrl: 'https://gateway.example' }] and
    [{ network: 'sepolia' }]. *)
Definition overriding_config : Client.FhevmClientConfig :=
  {| Client.cfg_network := Client.NetworkName "sepolia";
     Client.cfg_provider := false;
     Client.cfg_privateKey := None;
     Client.cfg_gatewayUrl := Some "https://gateway.example";
     Client.cfg_aclAddress := None |}.

Definition plain_config : Client.FhevmClientConfig :=
  {| Client.cfg_network := Client.NetworkName "sepolia";
     Client.cfg_provider := false;
     Client.cfg_privateKey := None;
     Client.cfg_gatewayUrl := None;
     Client.cfg_aclAddress := None |}.

(** A limiter for [M] requests per [W] milliseconds that has recorded the
    requests [rs]. *)
Definition limiter (M : nat) (W : Z) (rs : list Z) : Security.RateLimiter :=
  {| Security.requests := rs;
     Security.maxRequests := of_Z (Z.of_nat M);
     Security.windowMs := of_Z W |}.

(** A step of [createFhevmClient] under which a property of the heap of
    configurations persists. *)
Definition keeps {A} (P : gmap positive Client.NetworkConfig → Prop)
    (m : prog Client.state A) : Prop :=
  ∀ st, P (Client.heap st) → P (Client.heap (m st).1).

(** The object at [r] has [g] for its [gatewayUrl]. *)
Definition gateway_is (r : positive) (g : string)
    (h : gmap positive Client.NetworkConfig) : Prop :=
  Client.gatewayUrl <$> (h !! r) = Some g.

(** [gatewayUrl] of the registry's entry for a name, in a state. *)
Definition registry_gatewayUrl (name : string) (st : Client.state) : option string :=
  r ← Client.NETWORKS !! name;
  cfg ← Client.heap st !! r;
  Some (Client.gatewayUrl cfg).

(** What [encrypt] may hand to the instance: a number within the width it
    is added with, a bigint within 64 bits, a string of 42 characters that
    begins with [0x]. *)
Definition in_range_call (op : CryptoCall) : bool :=
  match op with
  | add8 n => ge n (of_Z 0) && le n (of_Z 255)
  | add16 n => ge n (of_Z 0) && le n (of_Z 65535)
  | add32 n => ge n (of_Z 0) && le n (of_Z 4294967295)
  | add64 z => (0 <=? z) && (z <=? 18446744073709551615)
  | addAddress s => startsWith s "0x" && (String.length s =? 42)%nat
  | _ => true
  end.

(** The times at which [isAllowed] answered [true]. *)
Fixpoint accepted_times (times : list Z) (answers : list bool) : list Z :=
  match times, answers with
  | t :: times', b :: answers' =>
      if b then t :: accepted_times times' answers'
      else accepted_times times' answers'
  | _, _ => []
  end.



(** A store of integers: written in decimal, read back by
    [decimal_StringToBigInt]. *)
Definition stringify_Z (z : Z) : outcome string := Returns (pretty z).
Definition parse_Z (s : string) : outcome Z :=
  match decimal_StringToBigInt s with
  | Some z => Returns z
  | None => Throws (mkError "SyntaxError" "Unexpected token")
  end.

(** The request [revokePermit] sends. *)
Definition revoke_request (c : Decryption.client)
    (permit : Decryption.DecryptionPermit) : Request :=
  {| url := Client.gatewayUrl (Client.network c) +:+ "/permit/revoke";
     method := "POST";
     headers := [("Content-Type", "application/json")];
     body := [("signature", Decryption.signature permit);
              ("publicKey", Decryption.publicKey permit)] |}.


(** [{ network: 'sepolia', privateKey: '0xkey' }] *)
Definition node_config : Client.FhevmClientConfig :=
  {| Client.cfg_network := Client.NetworkName "sepolia";
     Client.cfg_provider := false;
     Client.cfg_privateKey := Some "0xkey";
     Client.cfg_gatewayUrl := None;
     Client.cfg_aclAddress := None |}.

End Samples.

(* ================================================================== *)
(** ** Facts about the runtime *)
(* ================================================================== *)

Import Js Fhevmjs Samples.

Lemma Qle_bool_inject_Z (a b : Z) :
  Qle_bool (inject_Z a) (inject_Z b) = (a <=? b).
Proof. unfold Qle_bool; simpl. by rewrite !Z.mul_1_r. Qed.

Lemma le_of_Z (a b : Z) : le (of_Z a) (of_Z b) = (a <=? b).
Proof. apply Qle_bool_inject_Z. Qed.

Lemma lt_of_Z (a b : Z) : lt (of_Z a) (of_Z b) = (a <? b).
Proof.
  unfold lt, of_Z. rewrite Qle_bool_inject_Z.
  destruct (Z.leb_spec b a), (Z.ltb_spec a b); simpl; auto; lia.
Qed.

Lemma le_true_not_lt (a b : number) : le a b = true → lt b a = false.
Proof.
  destruct a, b; simpl; try done. intros ->. done.
Qed.

Lemma lt_true_not_le (a b : number) : lt a b = true → le b a = false.
Proof.
  destruct a, b; simpl; try done. by intros ?%negb_true_iff.
Qed.

(* ================================================================== *)
(** ** core/encryption.ts: range checks and dispatch *)
(* ================================================================== *)

Section EncryptionFacts.
Context (c : Encryption.client).

Lemma through_accepting (add : CryptoCall) :
  accepting c → is_returns (Encryption.through c add).2 = true.
Proof.
  intros Hacc.
  unfold Encryption.through, Encryption.new_input, Encryption.on_instance,
    bind, call; simpl.
  pose proof (Hacc [createEncryptedInput
                      (Client.aclAddress (Client.network c)) (Client.address c)]) as H1.
  destruct (respond _ [_]) as [x1|]; [|done]. simpl.
  pose proof (Hacc [createEncryptedInput
                      (Client.aclAddress (Client.network c)) (Client.address c); add]) as H2.
  destruct (respond _ [_; _]) as [x2|]; [|done]. simpl.
  apply Hacc.
Qed.

Lemma through_calls (add : CryptoCall) :
  (Encryption.through c add).1 `prefix_of` Encryption.path c add.
Proof.
  unfold Encryption.through, Encryption.path, Encryption.new_input,
    Encryption.on_instance, bind, call; simpl.
  destruct (respond _ [_]); simpl; [|by eexists [_; _]].
  destruct (respond _ [_; _]); simpl; [|by eexists [_]].
  by exists [].
Qed.

Lemma guarded_spec (refuse : bool) (msg : string) (add : CryptoCall) (P : Prop) :
  (refuse = false ↔ P) →
  (P → guarded c refuse msg add [] = Encryption.through c add)
  ∧ (¬ P → fails_before_any_call (guarded c refuse msg add) msg)
  ∧ (accepting c → (succeeds (guarded c refuse msg add) ↔ P)).
Proof.
  intros HP. unfold guarded, fails_before_any_call, succeeds, result.
  destruct refuse.
  - assert (¬ P) as HnP by (intros HP'%HP; done).
    split_and!; [done|done|]. intros _. split; [done|done].
  - assert P as HP' by by apply HP.
    split_and!; [done|done|].
    intros Hacc. split; [done|]. intros _. by apply through_accepting.
Qed.
End EncryptionFacts.

Lemma uint_guard (v lo hi : Z) :
  (v <? lo) || (v >? hi) = false ↔ lo ≤ v ≤ hi.
Proof.
  rewrite orb_false_iff, Z.ltb_ge, Z.gtb_ltb, Z.ltb_ge. lia.
Qed.

Lemma number_guard (v hi : Z) :
  lt (of_Z v) (of_Z 0) || gt (of_Z v) (of_Z hi) = false ↔ 0 ≤ v ≤ hi.
Proof.
  unfold gt. rewrite !lt_of_Z, orb_false_iff, !Z.ltb_ge. lia.
Qed.

(** C6. In-range integers reach the instance, and the encryption then is
    whatever the instance makes of the three calls; every other integer is
    refused with the width's error before any call on the instance.  With
    an instance that refuses nothing, [encryptUint8] succeeds iff
    [0 <= v <= 255], and likewise [encryptUint16] up to 65535,
    [encryptUint32] up to 4294967295 and [encryptUint64] up to 2^64 - 1. *)
Theorem encryptUint_bounds (c : Encryption.client) (v : Z) :
  ((0 ≤ v ≤ 255 →
      Encryption.encryptUint8 c (of_Z v) [] = Encryption.through c (add8 (of_Z v)))
   ∧ (¬ 0 ≤ v ≤ 255 →
      fails_before_any_call (Encryption.encryptUint8 c (of_Z v))
        "Value must be between 0 and 255 for uint8")
   ∧ (accepting c → (succeeds (Encryption.encryptUint8 c (of_Z v)) ↔ 0 ≤ v ≤ 255)))
  ∧ ((0 ≤ v ≤ 65535 →
      Encryption.encryptUint16 c (of_Z v) [] = Encryption.through c (add16 (of_Z v)))
   ∧ (¬ 0 ≤ v ≤ 65535 →
      fails_before_any_call (Encryption.encryptUint16 c (of_Z v))
        "Value must be between 0 and 65535 for uint16")
   ∧ (accepting c → (succeeds (Encryption.encryptUint16 c (of_Z v)) ↔ 0 ≤ v ≤ 65535)))
  ∧ ((0 ≤ v ≤ 4294967295 →
      Encryption.encryptUint32 c (of_Z v) [] = Encryption.through c (add32 (of_Z v)))
   ∧ (¬ 0 ≤ v ≤ 4294967295 →
      fails_before_any_call (Encryption.encryptUint32 c (of_Z v))
        "Value must be between 0 and 4294967295 for uint32")
   ∧ (accepting c → (succeeds (Encryption.encryptUint32 c (of_Z v)) ↔ 0 ≤ v ≤ 4294967295)))
  ∧ ((0 ≤ v ≤ 2 ^ 64 - 1 →
      Encryption.encryptUint64 c v [] = Encryption.through c (add64 v))
   ∧ (¬ 0 ≤ v ≤ 2 ^ 64 - 1 →
      fails_before_any_call (Encryption.encryptUint64 c v)
        "Value must be between 0 and 2^64-1 for uint64")
   ∧ (accepting c → (succeeds (Encryption.encryptUint64 c v) ↔ 0 ≤ v ≤ 2 ^ 64 - 1))).
Proof.
  split; [|split; [|split]].
  - apply (guarded_spec c _ _ (add8 (of_Z v)) _ (number_guard v 255)).
  - apply (guarded_spec c _ _ (add16 (of_Z v)) _ (number_guard v 65535)).
  - apply (guarded_spec c _ _ (add32 (of_Z v)) _ (number_guard v 4294967295)).
  - change (2 ^ 64 - 1) with 18446744073709551615.
    apply (guarded_spec c _ _ (add64 v) _ (uint_guard v 0 18446744073709551615)).
Qed.

Lemma encryptUint_bounds_witness :
  accepting sample_client ∧ 0 ≤ 200 ≤ 255 ∧ ¬ 0 ≤ 256 ≤ 255
  ∧ succeeds (Encryption.encryptUint8 sample_client (of_Z 200))
  ∧ fails_before_any_call (Encryption.encryptUint8 sample_client (of_Z 256))
      "Value must be between 0 and 255 for uint8".
Proof.
  assert (accepting sample_client) as Hacc by (intros tr; reflexivity).
  split; [exact Hacc|]. split; [lia|]. split; [lia|]. split.
  - destruct (encryptUint_bounds sample_client 200) as [(_ & _ & Hiff) _].
    apply (Hiff Hacc). lia.
  - destruct (encryptUint_bounds sample_client 256) as [(_ & Hout & _) _].
    apply Hout. lia.
Defined.

(** C5. Automatic detection sends every boolean down the boolean path and
    every plain number that is [>= 0] down the narrowest unsigned path that
    holds it: 8 bits up to 255, 16 bits up to 65535, 32 bits up to
    4294967295; a plain number above 4294967295 is refused before any call
    on the instance, never widened to 64 bits.  So [encrypt(250)] adds 8
    bits, [encrypt(1000)] 16, [encrypt(2**32 - 1)] 32, and [encrypt(2**32)]
    throws. *)
Theorem encrypt_dispatch (c : Encryption.client) :
  (∀ b : bool, Encryption.encrypt c (VBool b) [] = Encryption.through c (addBool b))
  ∧ (∀ n : number, ge n (of_Z 0) = true →
       (le n (of_Z 255) = true →
          Encryption.encrypt c (VNumber n) [] = Encryption.through c (add8 n))
       ∧ (gt n (of_Z 255) = true → le n (of_Z 65535) = true →
          Encryption.encrypt c (VNumber n) [] = Encryption.through c (add16 n))
       ∧ (gt n (of_Z 65535) = true → le n (of_Z 4294967295) = true →
          Encryption.encrypt c (VNumber n) [] = Encryption.through c (add32 n))
       ∧ (gt n (of_Z 4294967295) = true →
          fails_before_any_call (Encryption.encrypt c (VNumber n))
            "Number value out of range for uint32, use bigint for uint64"))
  ∧ Encryption.encrypt c (VNumber (of_Z 250)) []
      = Encryption.through c (add8 (of_Z 250))
  ∧ Encryption.encrypt c (VNumber (of_Z 1000)) []
      = Encryption.through c (add16 (of_Z 1000))
  ∧ Encryption.encrypt c (VNumber (of_Z (2 ^ 32 - 1))) []
      = Encryption.through c (add32 (of_Z (2 ^ 32 - 1)))
  ∧ fails_before_any_call (Encryption.encrypt c (VNumber (of_Z (2 ^ 32))))
      "Number value out of range for uint32, use bigint for uint64".
Proof.
  assert (∀ n : number, ge n (of_Z 0) = true →
       (le n (of_Z 255) = true →
          Encryption.encrypt c (VNumber n) [] = Encryption.through c (add8 n))
       ∧ (gt n (of_Z 255) = true → le n (of_Z 65535) = true →
          Encryption.encrypt c (VNumber n) [] = Encryption.through c (add16 n))
       ∧ (gt n (of_Z 65535) = true → le n (of_Z 4294967295) = true →
          Encryption.encrypt c (VNumber n) [] = Encryption.through c (add32 n))
       ∧ (gt n (of_Z 4294967295) = true →
          fails_before_any_call (Encryption.encrypt c (VNumber n))
            "Number value out of range for uint32, use bigint for uint64"))
    as Hnum.
  { intros n Hge.
    assert (lt n (of_Z 0) = false) as Hlt0 by by apply le_true_not_lt.
    unfold fails_before_any_call, Encryption.encrypt. rewrite Hge. cbn [andb].
    split_and!.
    - intros H8. rewrite H8.
      unfold Encryption.encryptUint8, gt.
      by rewrite Hlt0, (le_true_not_lt _ _ H8).
    - intros H8%lt_true_not_le H16. rewrite H8, H16.
      unfold Encryption.encryptUint16, gt.
      by rewrite Hlt0, (le_true_not_lt _ _ H16).
    - intros H16%lt_true_not_le H32.
      assert (le n (of_Z 255) = false) as H8.
      { destruct n as [| | |q]; try done. simpl in *.
        apply not_true_iff_false. intros Hq%Qle_bool_iff.
        apply not_true_iff_false in H16. apply H16, Qle_bool_iff.
        eapply Qle_trans; [exact Hq|]. by apply Qle_bool_iff. }
      rewrite H8, H16, H32.
      unfold Encryption.encryptUint32, gt.
      by rewrite Hlt0, (le_true_not_lt _ _ H32).
    - intros H32%lt_true_not_le.
      assert (∀ m : Z, m <= 4294967295 → le n (of_Z m) = false) as Hle.
      { intros m Hm. destruct n as [| | |q]; try done. simpl in *.
        apply not_true_iff_false. intros Hq%Qle_bool_iff.
        apply not_true_iff_false in H32. apply H32, Qle_bool_iff.
        eapply Qle_trans; [exact Hq|]. rewrite <- Zle_Qle. exact Hm. }
      by rewrite !Hle by lia. }
  split; [by intros []|]. split; [exact Hnum|].
  split; [by apply Hnum|]. split; [by apply Hnum|]. split; [by apply Hnum|].
  by apply Hnum.
Qed.

Lemma encrypt_dispatch_witness :
  ge (of_Z 300) (of_Z 0) = true
  ∧ gt (of_Z 300) (of_Z 255) = true
  ∧ le (of_Z 300) (of_Z 65535) = true
  ∧ Encryption.encrypt sample_client (VNumber (of_Z 300)) []
    = Encryption.through sample_client (add16 (of_Z 300)).
Proof.
  split; [reflexivity|]. split; [reflexivity|]. split; [reflexivity|].
  destruct (encrypt_dispatch sample_client) as (_ & Hnum & _).
  destruct (Hnum (of_Z 300) eq_refl) as (_ & H16 & _).
  apply H16; reflexivity.
Defined.

(** C10. A bigint always takes the 64-bit path: [encrypt(client, b)] is
    [encryptUint64(client, b)], it succeeds (with an instance that refuses
    nothing) iff [0 <= b <= 2^64 - 1], it fails before any call on the
    instance otherwise, and it never adds 8, 16 or 32 bits, however small
    [b] is. *)
Theorem encrypt_bigint_uint64 (c : Encryption.client) (b : Z) :
  Encryption.encrypt c (VBigInt b) = Encryption.encryptUint64 c b
  ∧ (0 ≤ b ≤ 2 ^ 64 - 1 →
     Encryption.encrypt c (VBigInt b) [] = Encryption.through c (add64 b))
  ∧ (¬ 0 ≤ b ≤ 2 ^ 64 - 1 →
     fails_before_any_call (Encryption.encrypt c (VBigInt b))
       "Value must be between 0 and 2^64-1 for uint64")
  ∧ (accepting c →
     (succeeds (Encryption.encrypt c (VBigInt b)) ↔ 0 ≤ b ≤ 2 ^ 64 - 1))
  ∧ (∀ op, op ∈ calls (Encryption.encrypt c (VBigInt b)) → is_narrow_add op = false).
Proof.
  split; [reflexivity|].
  change (2 ^ 64 - 1) with 18446744073709551615.
  destruct (guarded_spec c _ "Value must be between 0 and 2^64-1 for uint64"
              (add64 b) _ (uint_guard b 0 18446744073709551615))
    as (Hin & Hout & Hiff).
  split; [exact Hin|]. split; [exact Hout|]. split; [exact Hiff|].
  intros op. unfold calls. cbn [Encryption.encrypt].
  destruct (decide (0 ≤ b ≤ 18446744073709551615)) as [Hb|Hb].
  - change (Encryption.encryptUint64 c b [])
      with (guarded c ((b <? 0) || (b >? 18446744073709551615))
              "Value must be between 0 and 2^64-1 for uint64" (add64 b) []).
    rewrite (Hin Hb). intros Hop.
    eapply elem_of_prefix in Hop; [|apply through_calls].
    unfold Encryption.path in Hop. set_unfold in Hop.
    by destruct Hop as [->|[->|[->|[]]]].
  - change (Encryption.encryptUint64 c b [])
      with (guarded c ((b <? 0) || (b >? 18446744073709551615))
              "Value must be between 0 and 2^64-1 for uint64" (add64 b) []).
    rewrite (Hout Hb). by intros ?%elem_of_nil.
Qed.

Lemma encrypt_bigint_uint64_witness :
  0 ≤ 5 ≤ 2 ^ 64 - 1
  ∧ Encryption.encrypt sample_client (VBigInt 5) []
    = Encryption.through sample_client (add64 5).
Proof.
  split; [lia|].
  destruct (encrypt_bigint_uint64 sample_client 5) as (_ & Hin & _).
  apply Hin. lia.
Defined.

(** All [encryptAddress] asks of an address: the prefix and the length. *)
Lemma encryptAddress_prefix_and_length (c : Encryption.client) (addr : string) :
  startsWith addr "0x" = true →
  String.length addr = 42%nat →
  Encryption.encryptAddress c addr [] = Encryption.through c (addAddress addr).
Proof.
  intros Hprefix Hlength. unfold Encryption.encryptAddress.
  by rewrite Hprefix, Hlength.
Qed.

(** C7 (the code's behaviour at the failing input).  A string of 42
    characters that begins with [0x] passes the check of [encryptAddress]
    whatever follows: the address made of forty [z] goes to [addAddress],
    although it does not match the address pattern, which
    [validateFheValue] enforces for the type [address] with the very same
    error message. *)
Theorem encryptAddress_accepts_non_hex (c : Encryption.client)
    (StringToBigInt : string → option Z) :
  String.length not_hex_address = 42%nat
  ∧ Validation.address_regex_test not_hex_address = false
  ∧ Encryption.encryptAddress c not_hex_address []
    = Encryption.through c (addAddress not_hex_address)
  ∧ Encryption.encrypt c (VString not_hex_address) []
    = Encryption.through c (addAddress not_hex_address)
  ∧ Validation.validateFheValue StringToBigInt (VString not_hex_address) "address"
    = Throws (Error "Invalid Ethereum address format").
Proof. by split_and!. Qed.

(* ================================================================== *)
(** ** core/decryption.ts: permits, single and batch decryption *)
(* ================================================================== *)

Section DecryptionFacts.
Context (net : Js.network) (StringToBigInt : string → option Z).
Context (c : Decryption.client).

Lemma isPermitValid_run (permit : Decryption.DecryptionPermit) (tr : list Request) :
  Decryption.isPermitValid net c permit tr
  = (tr ++ [validate_request c permit],
     Returns (says_valid (net (tr ++ [validate_request c permit])))).
Proof.
  unfold Decryption.isPermitValid, try_catch, bind, fetch, call, lift, ret,
    says_valid, validate_request, Decryption.json_headers.
  destruct (net _) as [response|]; [|done].
  destruct (ok response); [|done]. simpl.
  destruct (response_json response) as [data|]; [|done].
  by destruct (get data "valid").
Qed.

Lemma decrypt_trace (handle : Z) (permit : Decryption.DecryptionPermit)
    (tr : list Request) :
  (Decryption.decrypt net StringToBigInt c handle permit tr).1
  = tr ++ [decrypt_request c handle permit].
Proof.
  unfold Decryption.decrypt, try_catch, bind, fetch, call, lift, throw,
    decrypt_request, Decryption.json_headers.
  destruct (net _) as [response|]; [|done].
  destruct (ok response); [|done]. simpl.
  destruct (response_json response) as [data|]; [|done].
  destruct (get data "value") as [v|]; [|done].
  by destruct (BigInt StringToBigInt v).
Qed.

Lemma decrypt_failure (handle : Z) (permit : Decryption.DecryptionPermit)
    (tr : list Request) :
  match (Decryption.decrypt net StringToBigInt c handle permit tr).2 with
  | Returns _ => True
  | Throws e => ∃ cause, e = Error ("Failed to decrypt value: " +:+ cause)
  end.
Proof.
  unfold Decryption.decrypt, try_catch, bind, fetch, call, lift, throw.
  destruct (net _) as [response|]; [|by eexists].
  destruct (ok response); [|by eexists]. simpl.
  destruct (response_json response) as [data|]; [|by eexists].
  destruct (get data "value") as [v|]; [|by eexists].
  destruct (BigInt StringToBigInt v); [done|by eexists].
Qed.

Lemma decryptionPromises_spec (permit : Decryption.DecryptionPermit)
    (handles : list Z) (tr : list Request) :
  let run := Decryption.decryptionPromises net StringToBigInt c handles permit tr in
  run.1 = tr ++ ((λ h, decrypt_request c h permit) <$> handles)
  ∧ length run.2 = length handles
  ∧ ∀ i h, handles !! i = Some h →
      run.2 !! i
      = Some (Decryption.decrypt net StringToBigInt c h permit
                (tr ++ ((λ h, decrypt_request c h permit) <$> take i handles))).2.
Proof.
  revert tr. induction handles as [|h0 rest IH]; intros tr; simpl.
  - split; [by rewrite app_nil_r|]. split; [done|]. intros i h Hi. done.
  - pose proof (decrypt_trace h0 permit tr) as Htr.
    destruct (Decryption.decrypt net StringToBigInt c h0 permit tr)
      as [tr1 o] eqn:Hd. simpl in Htr. subst tr1.
    specialize (IH (tr ++ [decrypt_request c h0 permit])).
    destruct (Decryption.decryptionPromises net StringToBigInt c rest permit _)
      as [tr2 os]. simpl in *.
    destruct IH as (IH1 & IH2 & IH3).
    split; [by rewrite IH1, <- app_assoc|]. split; [by rewrite IH2|].
    intros [|i] h Hi; simpl in *.
    + simplify_eq. by rewrite app_nil_r, Hd.
    + rewrite (IH3 i h Hi). by rewrite <- app_assoc.
Qed.
End DecryptionFacts.

Lemma Promise_all_rejects {A} (settled : list nat) (ps : list (outcome A))
    (i : nat) (e : error) :
  ps !! i = Some (Throws e) →
  ∃ e' j, Decryption.Promise_all settled ps = Throws e' ∧ ps !! j = Some (Throws e').
Proof.
  intros Hi. unfold Decryption.Promise_all.
  destruct (Decryption.rejections settled ps) as [|e' es] eqn:Hrej.
  - assert (e ∈ Decryption.rejections settled ps) as Hin.
    { unfold Decryption.rejections. apply list_elem_of_omap.
      exists i. split; [|by rewrite Hi].
      apply elem_of_app. right. apply elem_of_seq.
      apply lookup_lt_Some in Hi. lia. }
    rewrite Hrej in Hin. by apply elem_of_nil in Hin.
  - assert (e' ∈ Decryption.rejections settled ps) as Hin
      by (rewrite Hrej; left).
    unfold Decryption.rejections in Hin.
    apply list_elem_of_omap in Hin as (j & _ & Hj).
    exists e', j. split; [done|].
    destruct (ps !! j) as [[a|e'']|]; by simplify_eq.
Qed.

Lemma Promise_all_resolves {A} (settled : list nat) (ps : list (outcome A)) :
  (∀ i o, ps !! i = Some o → is_returns o = true) →
  Decryption.Promise_all settled ps = Returns (Decryption.values ps)
  ∧ ps = Returns <$> Decryption.values ps.
Proof.
  intros Hall. split.
  - unfold Decryption.Promise_all.
    destruct (Decryption.rejections settled ps) as [|e' es] eqn:Hrej; [done|].
    assert (e' ∈ Decryption.rejections settled ps) as Hin
      by (rewrite Hrej; left).
    unfold Decryption.rejections in Hin.
    apply list_elem_of_omap in Hin as (j & _ & Hj).
    destruct (ps !! j) as [[a|e'']|] eqn:Hpj; simplify_eq.
    by apply Hall in Hpj.
  - induction ps as [|p ps IH]; [done|].
    pose proof (Hall 0%nat p eq_refl) as Hp.
    destruct p as [a|]; [|done]. unfold Decryption.values. simpl.
    f_equal. apply IH. intros i o Hi. by apply (Hall (S i)).
Qed.

(** C1 (counterexample).  At time 2000 the permit that expired at 1000 is
    not rejected locally: [isPermitValid] sends the validation request and
    returns the gateway's verdict, here [true]. *)
Lemma isPermitValid_expired_is_sent :
  Decryption.expiresAt expired_permit = Some 1000
  ∧ 1000 < 2000
  ∧ Decryption.isPermitValid obliging_gateway sample_client expired_permit []
    = ([validate_request sample_client expired_permit], Returns true).
Proof. split; [reflexivity|]. split; [lia|reflexivity]. Qed.

(** C1 (amended).  [isPermitValid] makes no local check: for every permit
    it sends exactly one POST to [{gatewayUrl}/permit/validate] with the
    permit's signature and public key, and returns (never throws) [true]
    exactly when the response is ok and its JSON body has [valid === true];
    a transport failure, a non-ok status or an unreadable body give
    [false].  The answer does not depend on [expiresAt]. *)
Theorem isPermitValid_asks_gateway (net : Js.network) (c : Decryption.client)
    (sig pk : string) (expiry expiry' : option Z) :
  let permit := {| Decryption.signature := sig; Decryption.publicKey := pk;
                   Decryption.expiresAt := expiry |} in
  let permit' := {| Decryption.signature := sig; Decryption.publicKey := pk;
                    Decryption.expiresAt := expiry' |} in
  calls (Decryption.isPermitValid net c permit) = [validate_request c permit]
  ∧ result (Decryption.isPermitValid net c permit)
    = Returns (says_valid (net [validate_request c permit]))
  ∧ ∀ tr, Decryption.isPermitValid net c permit' tr
          = Decryption.isPermitValid net c permit tr.
Proof.
  intros permit permit'. unfold calls, result.
  rewrite isPermitValid_run. split; [done|]. split; [done|].
  intros tr. by rewrite !isPermitValid_run.
Qed.

(** C2 (counterexample).  The permit with an empty signature fails
    [validateDecryptionPermit], yet [decrypt] sends it to the gateway and
    returns the value the gateway answers. *)
Lemma decrypt_sends_unsigned_permit :
  Validation.validateDecryptionPermit (Decryption.as_any unsigned_permit)
  = Throws (Error "Permit signature is required")
  ∧ Decryption.decrypt obliging_gateway decimal_StringToBigInt sample_client 7
      unsigned_permit []
    = ([decrypt_request sample_client 7 unsigned_permit], Returns 42).
Proof. split; reflexivity. Qed.

(** C2 (amended).  [decrypt] does not validate the permit: for every
    permit, with empty fields or not, it sends exactly one POST to
    [{gatewayUrl}/decrypt] carrying the handle and the permit's signature
    and public key as given, and when it throws, it throws
    [Error("Failed to decrypt value: <cause>")]. *)
Theorem decrypt_always_asks_gateway (net : Js.network)
    (StringToBigInt : string → option Z) (c : Decryption.client)
    (handle : Z) (permit : Decryption.DecryptionPermit) :
  calls (Decryption.decrypt net StringToBigInt c handle permit)
  = [decrypt_request c handle permit]
  ∧ match result (Decryption.decrypt net StringToBigInt c handle permit) with
    | Returns _ => True
    | Throws e => ∃ cause, e = Error ("Failed to decrypt value: " +:+ cause)
    end.
Proof.
  split.
  - unfold calls. by rewrite decrypt_trace.
  - apply decrypt_failure.
Qed.

(** C8.  [decryptBatch] starts one decryption per handle, in the order of
    the handles.  If one of them is rejected, the batch is rejected, with
    the reason of a rejected decryption, and no value is returned; if all
    are resolved, the batch resolves with exactly as many values as there
    are handles, the i-th value being that of the i-th handle. *)
Theorem decryptBatch_all_or_nothing (net : Js.network)
    (StringToBigInt : string → option Z) (settled : list nat)
    (c : Decryption.client) (handles : list Z)
    (permit : Decryption.DecryptionPermit) :
  let promises :=
    (Decryption.decryptionPromises net StringToBigInt c handles permit []).2 in
  let batch :=
    result (Decryption.decryptBatch net StringToBigInt settled c handles permit) in
  length promises = length handles
  ∧ (∀ i h, handles !! i = Some h →
       promises !! i
       = Some (Decryption.decrypt net StringToBigInt c h permit
                 ((λ h, decrypt_request c h permit) <$> take i handles)).2)
  ∧ ((∃ i e, promises !! i = Some (Throws e)) →
       ∃ e j, batch = Throws e ∧ promises !! j = Some (Throws e))
  ∧ ((∀ i o, promises !! i = Some o → is_returns o = true) →
       ∃ vs, batch = Returns vs
             ∧ length vs = length handles
             ∧ ∀ i, promises !! i = Returns <$> (vs !! i)).
Proof.
  intros promises batch.
  destruct (decryptionPromises_spec net StringToBigInt c permit handles [])
    as (_ & Hlen & Hith).
  assert (batch = Decryption.Promise_all settled promises) as Hbatch.
  { unfold batch, promises, result, Decryption.decryptBatch.
    by destruct (Decryption.decryptionPromises _ _ _ _ _ _). }
  split; [exact Hlen|]. split; [exact Hith|]. split.
  - intros (i & e & Hi). rewrite Hbatch.
    by apply (Promise_all_rejects settled promises i e).
  - intros Hall. rewrite Hbatch.
    destruct (Promise_all_resolves settled promises Hall) as [Hres Hps].
    exists (Decryption.values promises). split; [exact Hres|]. split.
    + rewrite <- Hlen.
      transitivity (length (Returns <$> Decryption.values promises));
        [by rewrite length_fmap|by rewrite <- Hps].
    + intros i. by rewrite <- list_lookup_fmap, <- Hps.
Qed.

Lemma decryptBatch_all_or_nothing_witness :
  let promises handles :=
    (Decryption.decryptionPromises picky_gateway decimal_StringToBigInt
       sample_client handles unsigned_permit []).2 in
  let batch handles :=
    result (Decryption.decryptBatch picky_gateway decimal_StringToBigInt []
              sample_client handles unsigned_permit) in
  ((∃ i e, promises [7; 13; 9] !! i = Some (Throws e))
   ∧ ∃ e j, batch [7; 13; 9] = Throws e ∧ promises [7; 13; 9] !! j = Some (Throws e))
  ∧ ((∀ i o, promises [7; 9] !! i = Some o → is_returns o = true)
     ∧ ∃ vs, batch [7; 9] = Returns vs
             ∧ length vs = 2%nat
             ∧ ∀ i, promises [7; 9] !! i = Returns <$> (vs !! i)).
Proof.
  intros promises batch. split.
  - assert (∃ i e, promises [7; 13; 9] !! i = Some (Throws e)) as Hone
      by (exists 1%nat; eexists; reflexivity).
    split; [exact Hone|].
    destruct (decryptBatch_all_or_nothing picky_gateway decimal_StringToBigInt []
                sample_client [7; 13; 9] unsigned_permit) as (_ & _ & Hrej & _).
    exact (Hrej Hone).
  - assert (∀ i o, promises [7; 9] !! i = Some o → is_returns o = true) as Hall.
    { intros [|[|i]] o Hi; vm_compute in Hi; by simplify_eq. }
    split; [exact Hall|].
    destruct (decryptBatch_all_or_nothing picky_gateway decimal_StringToBigInt []
                sample_client [7; 9] unsigned_permit) as (_ & _ & _ & Hres).
    exact (Hres Hall).
Defined.

(* ================================================================== *)
(** ** utils/validation.ts: how a failed check is reported *)
(* ================================================================== *)

Lemma BigInt_of_Z (StringToBigInt : string → option Z) (z : Z) :
  BigInt StringToBigInt (VNumber (of_Z z)) = Returns z.
Proof.
  unfold BigInt, of_Z, isInteger. rewrite Qfloor_Z.
  by rewrite (proj2 (Qeq_bool_iff _ _) (Qeq_refl _)).
Qed.

(** [inferFheType] is more generous than [encrypt]: it answers [uint64]
    for a plain number above the 32-bit ceiling.  [encrypt] does not call
    it. *)
Lemma inferFheType_plain_number_uint64 (StringToBigInt : string → option Z) :
  Validation.inferFheType StringToBigInt (VNumber (of_Z 4294967296))
  = Returns "uint64".
Proof. unfold Validation.inferFheType. by rewrite BigInt_of_Z. Qed.

(** C3 (counterexample).  On the malformed inputs they are there for, the
    checks throw: 256 for [uint8], a [null] handle, a handle that is not a
    number. *)
Lemma validation_check_throws :
  Validation.validateFheValue decimal_StringToBigInt (VNumber (of_Z 256)) "uint8"
  = Throws (Error "Value 256 out of range for uint8 (0 - 255)")
  ∧ Validation.validateEncryptedHandle decimal_StringToBigInt VNull
    = Throws (Error "Encrypted handle is required")
  ∧ Validation.validateEncryptedHandle decimal_StringToBigInt (VString "12x")
    = Throws (Error "Invalid encrypted handle format").
Proof. split_and!; reflexivity. Qed.

(** C3 (amended).  The checks of utils/validation.ts report a failure by
    throwing an [Error] whose message is the reason, and return normally on
    success.  [validateFheValue], for a numeric type and a value that
    [BigInt] converts, returns iff the value is within the type's range and
    otherwise throws the out-of-range [Error]; whatever its arguments, what
    it throws is an [Error] of its own or the error [BigInt] threw.
    [validateEncryptedHandle] returns the handle as a bigint or throws one
    of its two [Error]s. *)
Theorem validation_checks_throw (StringToBigInt : string → option Z) :
  (∀ (v : value) (z : Z) (type : string) (r : Validation.range),
     type ≠ "bool" →
     Validation.FHE_RANGES !! type = Some r →
     BigInt StringToBigInt v = Returns z →
     (Validation.min r ≤ z ≤ Validation.max r →
        Validation.validateFheValue StringToBigInt v type = Returns ())
     ∧ (¬ Validation.min r ≤ z ≤ Validation.max r →
        Validation.validateFheValue StringToBigInt v type
        = Throws (Error ("Value " +:+ pretty z +:+ " out of range for " +:+ type
                         +:+ " (" +:+ pretty (Validation.min r) +:+ " - "
                         +:+ pretty (Validation.max r) +:+ ")"))))
  ∧ (∀ (v : value) (type : string),
       match Validation.validateFheValue StringToBigInt v type with
       | Returns _ => True
       | Throws e => name e = "Error" ∨ BigInt StringToBigInt v = Throws e
       end)
  ∧ (∀ handle : value,
       match Validation.validateEncryptedHandle StringToBigInt handle with
       | Returns z => BigInt StringToBigInt handle = Returns z
       | Throws e => e = Error "Encrypted handle is required"
                     ∨ e = Error "Invalid encrypted handle format"
       end).
Proof.
  split_and!.
  - intros v z type r Hbool Hr Hv. unfold Validation.validateFheValue.
    destruct (decide (type = "bool")) as [|_]; [done|].
    destruct (decide (type = "address")) as [->|_]; [done|].
    rewrite Hv. simpl. rewrite Hr. split; intros Hz.
    + by rewrite (proj2 (uint_guard z _ _) Hz).
    + destruct (_ || _) eqn:Hg; [done|]. by apply uint_guard in Hg.
  - intros v type. unfold Validation.validateFheValue.
    destruct (decide (type = "bool")) as [|_].
    { destruct (_ && _); [by left|done]. }
    destruct (decide (type = "address")) as [|_].
    { destruct v; try by left. destruct (negb _); [by left|done]. }
    destruct (BigInt StringToBigInt v) as [z|e]; simpl; [|by right].
    destruct (Validation.FHE_RANGES !! type) as [r|]; [|by left].
    destruct (_ || _); [by left|done].
  - intros handle. unfold Validation.validateEncryptedHandle.
    destruct handle; try (by left);
      (destruct (BigInt _ _) eqn:Hb; [done|by right]).
Qed.

Lemma validation_checks_throw_witness :
  "uint8" ≠ "bool"
  ∧ Validation.FHE_RANGES !! "uint8" = Some {| Validation.min := 0; Validation.max := 255 |}
  ∧ BigInt decimal_StringToBigInt (VNumber (of_Z 255)) = Returns 255
  ∧ 0 ≤ 255 ≤ 255
  ∧ Validation.validateFheValue decimal_StringToBigInt (VNumber (of_Z 255)) "uint8"
    = Returns ().
Proof.
  assert ("uint8" ≠ "bool") as Hne by discriminate.
  assert (Validation.FHE_RANGES !! "uint8"
          = Some {| Validation.min := 0; Validation.max := 255 |}) as Hr
    by reflexivity.
  split; [exact Hne|]. split; [exact Hr|]. split; [reflexivity|]. split; [lia|].
  destruct (validation_checks_throw decimal_StringToBigInt) as (Hrange & _).
  destruct (Hrange (VNumber (of_Z 255)) 255 "uint8" _ Hne Hr eq_refl) as [Hin _].
  apply Hin. simpl. lia.
Defined.

(* ================================================================== *)
(** ** core/client.ts: the registry and the overrides *)
(* ================================================================== *)

Lemma keeps_bind {A B} (P : gmap positive Client.NetworkConfig → Prop)
    (m : prog Client.state A) (k : A → prog Client.state B) :
  keeps P m → (∀ a, keeps P (k a)) → keeps P (bind m k).
Proof.
  intros Hm Hk st HP. unfold bind. specialize (Hm st HP).
  destruct (m st) as [st' [a|e]]; [|done]. by apply Hk.
Qed.

Lemma keeps_pure {A} (P : gmap positive Client.NetworkConfig → Prop)
    (o : outcome A) :
  keeps P (lift o).
Proof. by intros st HP. Qed.

Lemma keeps_ret {A} (P : gmap positive Client.NetworkConfig → Prop) (a : A) :
  keeps P (ret a).
Proof. by intros st HP. Qed.

Lemma keeps_read (P : gmap positive Client.NetworkConfig → Prop) (r : positive) :
  keeps P (Client.read r).
Proof. intros st HP. unfold Client.read. by destruct (_ !! r). Qed.

Lemma keeps_fetchPublicKey (P : gmap positive Client.NetworkConfig → Prop)
    (env : Client.environment) (gatewayUrl : string) :
  keeps P (Client.fetchPublicKey env gatewayUrl).
Proof.
  intros st HP.
  unfold Client.fetchPublicKey, Client.fetch_st, try_catch, bind, fetch, call,
    lift, throw.
  simpl. destruct (Client.net env _) as [response|]; [|done]. simpl.
  destruct (ok response); [|done]. simpl.
  destruct (response_json response) as [data|]; [|done].
  by destruct (get data "publicKey").
Qed.

Lemma initializeFhevm_heap (env : Client.environment) (st : Client.state) :
  Client.heap (Client.initializeFhevm env st).1 = Client.heap st.
Proof.
  unfold Client.initializeFhevm.
  destruct (Client.fhevmInitialized st); [done|].
  by destruct (Client.initFhevm env).
Qed.

(** The write is not particular to one environment: whenever the library
    initialises, a client created by name with a [gatewayUrl] override
    leaves the override in the registry's entry, whatever the later steps
    (signer, public key, instance) do. *)
Lemma createFhevmClient_writes_registry (env : Client.environment)
    (config : Client.FhevmClientConfig) (st : Client.state)
    (name g : string) (r : positive) :
  Client.cfg_network config = Client.NetworkName name →
  Client.NETWORKS !! name = Some r →
  Client.given (Client.cfg_gatewayUrl config) = Some g →
  is_Some (Client.heap st !! r) →
  is_returns (Client.initializeFhevm env st).2 = true →
  gateway_is r g (Client.heap (Client.createFhevmClient env config st).1).
Proof.
  intros Hname Hr Hg [cfg0 Hcfg] Hinit.
  pose proof (initializeFhevm_heap env st) as Hheap.
  unfold Client.createFhevmClient. rewrite Hname, Hr, Hg.
  unfold bind at 1.
  destruct (Client.initializeFhevm env st) as [st1 [[]|]]; [|done].
  simpl in Hheap. clear Hinit.
  unfold bind at 1. unfold ret at 1.
  unfold bind at 1. unfold Client.set_heap at 1.
  match goal with |- gateway_is r g (Client.heap (bind ?m ?k ?st2).1) =>
    apply (keeps_bind (gateway_is r g) m k)
  end.
  - destruct (Client.given (Client.cfg_aclAddress config)); [|apply keeps_ret].
    intros st' HP. unfold Client.set_heap, gateway_is in *. simpl.
    rewrite lookup_alter_eq. by destruct (Client.heap st' !! r).
  - intros _. apply keeps_bind; [apply keeps_read|]. intros cfg.
    apply keeps_bind.
    { destruct (Client.given (Client.cfg_privateKey config)); [apply keeps_ret|].
      destruct (Client.cfg_provider config); [|apply keeps_ret].
      apply keeps_bind; [apply keeps_pure|]. intros a. apply keeps_ret. }
    intros pa. apply keeps_bind; [apply keeps_fetchPublicKey|]. intros publicKey.
    apply keeps_bind; [apply keeps_pure|]. intros inst. apply keeps_ret.
  - unfold gateway_is. simpl. by rewrite lookup_alter_eq, Hheap, Hcfg.
Qed.

(** C4 (the code's behaviour at the failing input).  Creating a client for
    ['sepolia'] with a [gatewayUrl] override writes the override into the
    registry's own entry: afterwards [NETWORKS.sepolia.gatewayUrl] is the
    override, and a later client created for ['sepolia'] without any
    override fetches its public key from the overridden gateway and has it
    as its network's gateway. *)
Theorem createFhevmClient_overwrites_registry :
  let first := Client.createFhevmClient working_environment overriding_config
                 Client.initial_state in
  let second := Client.createFhevmClient working_environment plain_config first.1 in
  registry_gatewayUrl "sepolia" Client.initial_state = Some "https://gateway.zama.ai"
  ∧ is_returns first.2 = true
  ∧ registry_gatewayUrl "sepolia" first.1 = Some "https://gateway.example"
  ∧ last (Client.sent second.1)
    = Some {| url := "https://gateway.example/publicKey"; method := "GET";
              headers := []; body := [] |}
  ∧ match second.2 with
    | Returns client =>
        Client.gatewayUrl <$> (Client.heap second.1 !! Client.network client)
        = Some "https://gateway.example"
    | Throws _ => False
    end.
Proof. vm_compute. by split_and!. Qed.

(* ================================================================== *)
(** ** utils/security.ts: the rate limiter *)
(* ================================================================== *)

Lemma filter_keeps_all {A} (f : A → bool) (l : list A) :
  (∀ x, x ∈ l → f x = true) → List.filter f l = l.
Proof.
  induction l as [|a l IH]; intros Hall; simpl; [done|].
  rewrite (Hall a) by left. f_equal. apply IH. intros x Hx. apply Hall. by right.
Qed.

Lemma filter_keeps_none {A} (f : A → bool) (l : list A) :
  (∀ x, x ∈ l → f x = false) → List.filter f l = [].
Proof.
  induction l as [|a l IH]; intros Hall; simpl; [done|].
  rewrite (Hall a) by left. apply IH. intros x Hx. apply Hall. by right.
Qed.

Section RateLimiterFacts.
Context (M : nat) (W : Z).

Local Abbreviation limiter := (Samples.limiter M W).

(** A call that finds every recorded request inside the window. *)
Lemma isAllowed_inside (rs : list Z) (now : Z) :
  (∀ t, t ∈ rs → now - t < W) →
  Security.isAllowed now (limiter rs)
  = if (length rs <? M)%nat then (limiter (rs ++ [now]), true)
    else (limiter rs, false).
Proof.
  intros Hin. unfold Security.isAllowed, Samples.limiter.
  cbn [Security.requests Security.windowMs Security.maxRequests].
  rewrite filter_keeps_all.
  2:{ intros t Ht. rewrite lt_of_Z. apply Z.ltb_lt. by apply Hin. }
  rewrite lt_of_Z.
  destruct (Nat.ltb_spec (length rs) M), (Z.ltb_spec (Z.of_nat (length rs)) (Z.of_nat M));
    try done; lia.
Qed.

(** A call that finds every recorded request outside the window. *)
Lemma isAllowed_outside (rs : list Z) (later : Z) :
  (∀ t, t ∈ rs → W ≤ later - t) →
  Security.isAllowed later (limiter rs)
  = if (0 <? M)%nat then (limiter [later], true) else (limiter [], false).
Proof.
  intros Hout. unfold Security.isAllowed, Samples.limiter.
  cbn [Security.requests Security.windowMs Security.maxRequests].
  rewrite filter_keeps_none.
  2:{ intros t Ht. rewrite lt_of_Z. apply Z.ltb_ge. by apply Hout. }
  cbn [length app]. change (Z.of_nat 0) with 0. rewrite lt_of_Z.
  destruct (Nat.ltb_spec 0 M), (Z.ltb_spec 0 (Z.of_nat M)); try done; lia.
Qed.

Lemma isAllowed_each_inside (ts rs : list Z) :
  (length rs + length ts ≤ M)%nat →
  (∀ k t p, ts !! k = Some t → p ∈ rs ++ take k ts → t - p < W) →
  Security.isAllowed_each ts (limiter rs)
  = (limiter (rs ++ ts), replicate (length ts) true).
Proof.
  revert rs. induction ts as [|t ts IH]; intros rs Hlen Hclose; simpl.
  - by rewrite app_nil_r.
  - rewrite isAllowed_inside.
    2:{ intros p Hp. apply (Hclose 0%nat t p); [done|].
        simpl. by rewrite app_nil_r. }
    simpl in Hlen.
    destruct (Nat.ltb_spec (length rs) M); [|lia].
    rewrite IH.
    + by rewrite <- app_assoc.
    + rewrite length_app. simpl. lia.
    + intros k t' p Hk Hp. apply (Hclose (S k) t' p); [done|].
      simpl. by rewrite <- app_assoc in Hp.
Qed.
End RateLimiterFacts.

(** C9.  A limiter for at most [M] requests per window of [W] milliseconds,
    asked at [M] times that each lie less than [W] after all the earlier
    ones, accepts all [M]; asked again at a time less than [W] after all of
    them, it refuses and records nothing; asked at a time [W] or more after
    all of them, it accepts again (if [M] is not zero). *)
Theorem RateLimiter_window (M : nat) (W : Z) (ts : list Z) (now : Z) :
  length ts = M →
  (∀ k t p, ts !! k = Some t → p ∈ take k ts → t - p < W) →
  (∀ t, t ∈ ts → now - t < W) →
  let fresh := Security.new (of_Z (Z.of_nat M)) (of_Z W) in
  let full := (Security.isAllowed_each ts fresh).1 in
  (Security.isAllowed_each ts fresh).2 = replicate M true
  ∧ Security.requests full = ts
  ∧ Security.isAllowed now full = (full, false)
  ∧ ∀ later, (0 < M)%nat → (∀ t, t ∈ ts → W ≤ later - t) →
      (Security.isAllowed later full).2 = true.
Proof.
  intros Hlen Hclose Hnow fresh full.
  pose proof (isAllowed_each_inside M W ts [] ltac:(simpl; lia) Hclose) as Heach.
  simpl in Heach.
  unfold full, fresh. change (Security.new _ _) with (Samples.limiter M W []).
  rewrite Heach. cbn [fst snd Samples.limiter Security.requests].
  split; [by rewrite Hlen|]. split; [done|]. split.
  - rewrite (isAllowed_inside M W ts now Hnow).
    destruct (Nat.ltb_spec (length ts) M); [lia|done].
  - intros later HM Hlater.
    rewrite (isAllowed_outside M W ts later Hlater).
    by destruct (Nat.ltb_spec 0 M); [|lia].
Qed.

Lemma RateLimiter_window_witness :
  let fresh := Security.new (of_Z 3) (of_Z 1000) in
  let full := (Security.isAllowed_each [10; 20; 30] fresh).1 in
  (Security.isAllowed_each [10; 20; 30] fresh).2 = [true; true; true]
  ∧ Security.isAllowed 1009 full = (full, false)
  ∧ (Security.isAllowed 1030 full).2 = true.
Proof.
  assert (∀ k t p, [10; 20; 30] !! k = Some t → p ∈ take k [10; 20; 30]
                   → t - p < 1000) as Hclose.
  { intros [|[|[|k]]] t p Hk Hp; simpl in *; simplify_eq;
      set_unfold in Hp; lia. }
  assert (∀ t, t ∈ [10; 20; 30] → 1009 - t < 1000) as Hnow.
  { intros t Ht. set_unfold in Ht. lia. }
  destruct (RateLimiter_window 3 1000 [10; 20; 30] 1009 eq_refl Hclose Hnow)
    as (Hall & _ & Hfull & Hlater).
  split; [exact Hall|]. split; [exact Hfull|].
  apply Hlater; [lia|]. intros t Ht. set_unfold in Ht. lia.
Defined.

(* ================================================================== *)
(** ** utils/security.ts: comparison and sanitising *)
(* ================================================================== *)

Lemma charCode_inj (x y : ascii) : Security.charCode x = Security.charCode y → x = y.
Proof.
  unfold Security.charCode. intros H%Nat2Z.inj.
  by rewrite <- (ascii_nat_embedding x), <- (ascii_nat_embedding y), H.
Qed.

Lemma secureCompare_loop_zero (a b : string) (r : Z) :
  String.length a = String.length b →
  Security.secureCompare_loop a b r = 0 ↔ r = 0 ∧ a = b.
Proof.
  revert b r. induction a as [|x a IH]; intros [|y b] r Hlen; simpl in *;
    try discriminate.
  - split; [by intros ->|by intros [-> _]].
  - rewrite IH by lia. rewrite Z.lor_eq_0_iff, Z.lxor_eq_0_iff. split.
    + intros [[-> ->%charCode_inj] ->]. done.
    + intros [-> [= -> ->]]. done.
Qed.

(** X1.  [secureCompare(a, b)] is [true] exactly when the two strings are
    the same, character for character; strings of different lengths, and
    strings of one length that differ anywhere (the last character
    included), compare [false]. *)
Theorem secureCompare_iff_equal (a b : string) :
  Security.secureCompare a b = true ↔ a = b.
Proof.
  unfold Security.secureCompare.
  destruct (Nat.eqb_spec (String.length a) (String.length b)) as [Hlen|Hlen]; simpl.
  - rewrite Z.eqb_eq, secureCompare_loop_zero by done.
    split; [by intros [_ ->]|by intros ->].
  - split; [done|]. intros ->. done.
Qed.

Lemma sanitizeInput_clean (input : string) :
  Validation.all_chars (λ c, negb (Security.is_markup c))
    (Security.sanitizeInput input) = true.
Proof.
  induction input as [|c rest IH]; simpl; [done|].
  destruct (Security.is_markup c) eqn:Hc; simpl; [done|]. by rewrite Hc.
Qed.

Lemma sanitizeInput_fixed (input : string) :
  Validation.all_chars (λ c, negb (Security.is_markup c)) input = true →
  Security.sanitizeInput input = input.
Proof.
  induction input as [|c rest IH]; simpl; [done|].
  intros [Hc Hrest]%andb_true_iff. apply negb_true_iff in Hc.
  by rewrite Hc, IH.
Qed.

(** X2.  The output of [sanitizeInput] contains none of the four markup
    characters, is never longer than the input, and is the input itself
    when the input contains none; sanitising twice is sanitising once. *)
Theorem sanitizeInput_removes_markup (input : string) :
  Validation.all_chars (λ c, negb (Security.is_markup c))
    (Security.sanitizeInput input) = true
  ∧ (String.length (Security.sanitizeInput input) ≤ String.length input)%nat
  ∧ (Validation.all_chars (λ c, negb (Security.is_markup c)) input = true →
     Security.sanitizeInput input = input)
  ∧ Security.sanitizeInput (Security.sanitizeInput input)
    = Security.sanitizeInput input.
Proof.
  split; [apply sanitizeInput_clean|]. split.
  { induction input as [|c rest IH]; simpl; [done|].
    destruct (Security.is_markup c); simpl; lia. }
  split; [apply sanitizeInput_fixed|].
  apply sanitizeInput_fixed, sanitizeInput_clean.
Qed.

Lemma sanitizeInput_removes_markup_witness :
  Validation.all_chars (λ c, negb (Security.is_markup c)) "0xabc" = true
  ∧ Security.sanitizeInput "0xabc" = "0xabc".
Proof.
  split; [reflexivity|].
  destruct (sanitizeInput_removes_markup "0xabc") as (_ & _ & Hfixed & _).
  apply Hfixed. reflexivity.
Defined.

(* ================================================================== *)
(** ** utils/security.ts: what the rate limiter records *)
(* ================================================================== *)

Lemma List_filter_sublist {A} (f : A → bool) (l : list A) :
  List.filter f l `sublist_of` l.
Proof.
  induction l as [|a l IH]; simpl; [done|].
  destruct (f a); [by apply sublist_skip|by apply sublist_cons].
Qed.

Lemma isAllowed_step (M : Z) (now : Z) (rl : Security.RateLimiter) :
  Security.maxRequests rl = of_Z M →
  Z.of_nat (length (Security.requests rl)) ≤ Z.max 0 M →
  let after := (Security.isAllowed now rl).1 in
  let answer := (Security.isAllowed now rl).2 in
  Security.maxRequests after = of_Z M
  ∧ Security.windowMs after = Security.windowMs rl
  ∧ Z.of_nat (length (Security.requests after)) ≤ Z.max 0 M
  ∧ Security.requests after
    `sublist_of` Security.requests rl ++ (if answer then [now] else []).
Proof.
  intros HM Hlen. unfold Security.isAllowed. rewrite HM, lt_of_Z.
  set (kept := List.filter _ _).
  assert (kept `sublist_of` Security.requests rl) as Hsub
    by apply List_filter_sublist.
  pose proof (sublist_length _ _ Hsub) as Hle.
  destruct (Z.ltb_spec (Z.of_nat (length kept)) M); simpl.
  - split; [done|]. split; [done|]. split.
    + rewrite length_app. simpl. lia.
    + by apply sublist_app.
  - split; [done|]. split; [done|]. split; [lia|]. by rewrite app_nil_r.
Qed.

Lemma isAllowed_each_records (M : Z) (times : list Z) (rl : Security.RateLimiter) :
  Security.maxRequests rl = of_Z M →
  Z.of_nat (length (Security.requests rl)) ≤ Z.max 0 M →
  let after := (Security.isAllowed_each times rl).1 in
  let answers := (Security.isAllowed_each times rl).2 in
  length answers = length times
  ∧ Z.of_nat (length (Security.requests after)) ≤ Z.max 0 M
  ∧ Security.requests after
    `sublist_of` Security.requests rl ++ accepted_times times answers.
Proof.
  revert rl. induction times as [|now times IH]; intros rl HM Hlen; simpl.
  - split; [done|]. split; [done|]. by rewrite app_nil_r.
  - destruct (isAllowed_step M now rl HM Hlen) as (HM1 & _ & Hlen1 & Hsub1).
    destruct (Security.isAllowed now rl) as [rl1 b]. simpl in *.
    specialize (IH rl1 HM1 Hlen1).
    destruct (Security.isAllowed_each times rl1) as [rl2 bs]. simpl in *.
    destruct IH as (Hl & Hlen2 & Hsub2).
    split; [by rewrite Hl|]. split; [done|].
    etrans; [exact Hsub2|].
    destruct b; simpl.
    + rewrite (cons_middle now), app_assoc. by apply sublist_app.
    + rewrite app_nil_r in Hsub1. by apply sublist_app.
Qed.

(** X3.  Whatever the times at which a fresh limiter for [M] requests is
    asked, and whatever its window, it never holds more than [M]
    timestamps, and the timestamps it holds are, in order, among the times
    of the calls it accepted: a refused call is never recorded. *)
Theorem RateLimiter_records_only_accepted (M : Z) (windowMs : number)
    (times : list Z) :
  let run := Security.isAllowed_each times (Security.new (of_Z M) windowMs) in
  length run.2 = length times
  ∧ Z.of_nat (length (Security.requests run.1)) ≤ Z.max 0 M
  ∧ Security.requests run.1 `sublist_of` accepted_times times run.2.
Proof.
  apply (isAllowed_each_records M times (Security.new (of_Z M) windowMs));
    simpl; [done|lia].
Qed.

(** X4.  [reset()] forgets the recorded requests and keeps the limits: a
    limiter that was full accepts, after a reset, a full quota of [M]
    requests that fall within one window. *)
Theorem RateLimiter_reset_restores_quota (M : nat) (W : Z)
    (recorded ts : list Z) :
  length ts = M →
  (∀ k t p, ts !! k = Some t → p ∈ take k ts → t - p < W) →
  Security.isAllowed_each ts (Security.reset (limiter M W recorded))
  = (limiter M W ts, replicate M true).
Proof.
  intros Hlen Hclose.
  change (Security.reset (limiter M W recorded)) with (limiter M W []).
  rewrite (isAllowed_each_inside M W ts []); [by rewrite Hlen|simpl; lia|done].
Qed.

Lemma RateLimiter_reset_restores_quota_witness :
  Security.isAllowed_each [50; 60] (Security.reset (limiter 2 1000 [10; 20]))
  = (limiter 2 1000 [50; 60], [true; true]).
Proof.
  apply (RateLimiter_reset_restores_quota 2 1000 [10; 20] [50; 60] eq_refl).
  intros [|[|k]] t p Hk Hp; simpl in *; simplify_eq; set_unfold in Hp; lia.
Defined.

(* ================================================================== *)
(** ** core/encryption.ts: what reaches the instance *)
(* ================================================================== *)

Lemma guarded_calls (c : Encryption.client) (refuse : bool) (msg : string)
    (add op : CryptoCall) :
  op ∈ (guarded c refuse msg add []).1 →
  refuse = false ∧ (op = add ∨ in_range_call op = true).
Proof.
  unfold guarded. destruct refuse; simpl; [by intros ?%elem_of_nil|].
  intros Hop. split; [done|].
  eapply elem_of_prefix in Hop; [|apply through_calls].
  unfold Encryption.path in Hop. set_unfold in Hop.
  destruct Hop as [->|[->|[->|[]]]]; auto.
Qed.

(** X5.  Whatever value [encrypt] is given, every call it makes on the
    instance is within bounds: 8, 16 and 32 bits are added only for a
    number between 0 and the width's maximum (so never for [NaN]), 64 bits
    only for a bigint between 0 and 2^64 - 1, an address only for a string
    of 42 characters that begins with [0x].  The typed functions called
    directly are laxer: their guard lets [NaN] through. *)
Theorem encrypt_calls_in_range (c : Encryption.client) :
  (∀ (v : value) (op : CryptoCall),
     op ∈ calls (Encryption.encrypt c v) → in_range_call op = true)
  ∧ Encryption.encryptUint8 c NaN [] = Encryption.through c (add8 NaN)
  ∧ Encryption.encryptUint16 c NaN [] = Encryption.through c (add16 NaN)
  ∧ Encryption.encryptUint32 c NaN [] = Encryption.through c (add32 NaN)
  ∧ in_range_call (add8 NaN) = false.
Proof.
  split; [|done].
  intros v op. unfold calls.
  destruct v as [| |b|n|z|s| |prim]; cbn [Encryption.encrypt];
    try (unfold throw; cbn [fst]; by intros ?%elem_of_nil).
  - intros Hop.
    apply (guarded_calls c false "" (addBool b)) in Hop as [_ [->|Hop]]; done.
  - destruct (ge n (of_Z 0) && le n (of_Z 255)) eqn:H8.
    { intros Hop.
      apply (guarded_calls c _ "Value must be between 0 and 255 for uint8"
               (add8 n)) in Hop as [_ [->|Hop]]; done. }
    destruct (ge n (of_Z 0) && le n (of_Z 65535)) eqn:H16.
    { intros Hop.
      apply (guarded_calls c _ "Value must be between 0 and 65535 for uint16"
               (add16 n)) in Hop as [_ [->|Hop]]; done. }
    destruct (ge n (of_Z 0) && le n (of_Z 4294967295)) eqn:H32.
    { intros Hop.
      apply (guarded_calls c _ "Value must be between 0 and 4294967295 for uint32"
               (add32 n)) in Hop as [_ [->|Hop]]; done. }
    unfold throw; cbn [fst]. by intros ?%elem_of_nil.
  - intros Hop.
    apply (guarded_calls c _ "Value must be between 0 and 2^64-1 for uint64"
             (add64 z)) in Hop as [Hguard [->|Hop]]; [|done].
    apply uint_guard in Hguard. simpl.
    apply andb_true_iff. split; apply Z.leb_le; lia.
  - destruct (startsWith s "0x") eqn:Hprefix;
      [|unfold throw; cbn [fst]; by intros ?%elem_of_nil].
    intros Hop.
    apply (guarded_calls c _ "Invalid Ethereum address format"
             (addAddress s)) in Hop as [Hguard [->|Hop]]; [|done].
    simpl. rewrite Hprefix in *. simpl in *.
    by apply negb_false_iff in Hguard.
Qed.

Lemma address_regex_shape (s : string) :
  Validation.address_regex_test s = true →
  startsWith s "0x" = true ∧ String.length s = 42%nat.
Proof.
  destruct s as [|c0 [|c1 digits]]; [done| |].
  { destruct c0 as [[|] [|] [|] [|] [|] [|] [|] [|]]; done. }
  intros H.
  destruct c0 as [[|] [|] [|] [|] [|] [|] [|] [|]]; try discriminate H.
  destruct c1 as [[|] [|] [|] [|] [|] [|] [|] [|]]; try discriminate H.
  simpl in H. apply andb_true_iff in H as [Hlen%Nat.eqb_eq _].
  split; [|simpl; by rewrite Hlen].
  unfold startsWith. apply String.prefix_correct. simpl. by destruct digits.
Qed.

(** X6.  An address that the validators accept (the pattern of
    [isValidAddress], [validateFheValue] and [inferFheType]) is never
    refused by the encryption side: [encryptAddress] hands it to
    [addAddress], and so does [encrypt] by automatic detection. *)
Theorem valid_address_is_encrypted (c : Encryption.client)
    (StringToBigInt : string → option Z) (s : string) :
  Security.isValidAddress s = true →
  Validation.validateFheValue StringToBigInt (VString s) "address" = Returns ()
  ∧ Validation.inferFheType StringToBigInt (VString s) = Returns "address"
  ∧ Encryption.encryptAddress c s [] = Encryption.through c (addAddress s)
  ∧ Encryption.encrypt c (VString s) [] = Encryption.through c (addAddress s).
Proof.
  unfold Security.isValidAddress. intros Hvalid.
  destruct (address_regex_shape s Hvalid) as [Hprefix Hlen].
  split; [by unfold Validation.validateFheValue; simpl; rewrite Hvalid|].
  split; [by unfold Validation.inferFheType; rewrite Hvalid|].
  assert (Encryption.encryptAddress c s [] = Encryption.through c (addAddress s))
    as Henc by by apply encryptAddress_prefix_and_length.
  split; [exact Henc|]. simpl. by rewrite Hprefix.
Qed.

Lemma valid_address_is_encrypted_witness :
  Security.isValidAddress "0x00000000000000000000000000000000000000Aa" = true
  ∧ Encryption.encrypt sample_client
      (VString "0x00000000000000000000000000000000000000Aa") []
    = Encryption.through sample_client
        (addAddress "0x00000000000000000000000000000000000000Aa").
Proof.
  split; [reflexivity|].
  apply (valid_address_is_encrypted sample_client decimal_StringToBigInt
           "0x00000000000000000000000000000000000000Aa" eq_refl).
Defined.

(* ================================================================== *)
(** ** utils/validation.ts: inference against validation, batches *)
(* ================================================================== *)

Lemma FHE_RANGES_cases (type : string) (r : Validation.range) :
  Validation.FHE_RANGES !! type = Some r →
  (type = "uint8" ∧ r = {| Validation.min := 0; Validation.max := 255 |})
  ∨ (type = "uint16" ∧ r = {| Validation.min := 0; Validation.max := 65535 |})
  ∨ (type = "uint32" ∧ r = {| Validation.min := 0; Validation.max := 4294967295 |})
  ∨ (type = "uint64"
     ∧ r = {| Validation.min := 0; Validation.max := 18446744073709551615 |})
  ∨ (type = "bool" ∧ r = {| Validation.min := 0; Validation.max := 1 |}).
Proof.
  unfold Validation.FHE_RANGES. simpl. intros H.
  repeat (apply lookup_insert_Some in H as [[<- <-]|[_ H]]; [tauto|]).
  by rewrite lookup_empty in H.
Qed.

Lemma validateFheValue_in_range (StringToBigInt : string → option Z)
    (v : value) (z : Z) (type : string) (r : Validation.range) :
  type ≠ "bool" →
  Validation.FHE_RANGES !! type = Some r →
  BigInt StringToBigInt v = Returns z →
  Validation.min r ≤ z ≤ Validation.max r →
  Validation.validateFheValue StringToBigInt v type = Returns ().
Proof.
  intros Hbool Hr Hv Hz. unfold Validation.validateFheValue.
  destruct (decide (type = "bool")) as [|_]; [done|].
  destruct (decide (type = "address")) as [->|_]; [done|].
  rewrite Hv. simpl. rewrite Hr.
  by rewrite (proj2 (uint_guard z _ _) Hz).
Qed.

(** What [inferFheType] answers for a value that is neither a boolean nor
    a string, once [BigInt] has converted it to [z]. *)
Lemma inferFheType_numeric (z : Z) (type : string) :
  (if z <? 0 then Throws (Error "Negative values are not supported")
   else if z <=? 255 then Returns "uint8"
   else if z <=? 65535 then Returns "uint16"
   else if z <=? 4294967295 then Returns "uint32"
   else if z <=? 18446744073709551615 then Returns "uint64"
   else Throws (Error "Value too large for supported FHE types"))
  = Returns type →
  ∃ r, type ≠ "bool" ∧ Validation.FHE_RANGES !! type = Some r
       ∧ Validation.min r ≤ z ≤ Validation.max r
       ∧ ∀ type' r', type' ≠ "bool" →
           Validation.FHE_RANGES !! type' = Some r' →
           Validation.min r' ≤ z ≤ Validation.max r' →
           Validation.max r ≤ Validation.max r'.
Proof.
  destruct (Z.ltb_spec z 0); [done|].
  destruct (Z.leb_spec z 255);
    [|destruct (Z.leb_spec z 65535);
      [|destruct (Z.leb_spec z 4294967295);
        [|destruct (Z.leb_spec z 18446744073709551615); [|done]]]];
    intros [= <-]; eexists; (split; [done|]); (split; [reflexivity|]);
    (split; [simpl; lia|]);
    intros type' r' Hbool
      [[-> ->]|[[-> ->]|[[-> ->]|[[-> ->]|[-> ->]]]]]%FHE_RANGES_cases;
    simpl; try done; lia.
Qed.

(** X7.  The type [inferFheType] infers for a value is one
    [validateFheValue] accepts for that value. *)
Theorem inferFheType_is_valid (StringToBigInt : string → option Z)
    (v : value) (type : string) :
  Validation.inferFheType StringToBigInt v = Returns type →
  Validation.validateFheValue StringToBigInt v type = Returns ().
Proof.
  unfold Validation.inferFheType.
  destruct v as [| |b|n|z|s| |prim];
    try (destruct (BigInt StringToBigInt _) as [z'|] eqn:Hz; [|done]; simpl;
         intros (r & Hbool & Hr & Hin & _)%inferFheType_numeric;
         by apply (validateFheValue_in_range _ _ z' _ r)).
  - by intros [= <-].
  - destruct (Validation.address_regex_test s) eqn:Hs; [|done].
    intros [= <-]. unfold Validation.validateFheValue. simpl. by rewrite Hs.
Qed.

Lemma inferFheType_is_valid_witness :
  Validation.inferFheType decimal_StringToBigInt (VNumber (of_Z 70000))
  = Returns "uint32"
  ∧ Validation.validateFheValue decimal_StringToBigInt (VNumber (of_Z 70000))
      "uint32" = Returns ().
Proof.
  assert (Validation.inferFheType decimal_StringToBigInt (VNumber (of_Z 70000))
          = Returns "uint32") as Hinfer by reflexivity.
  split; [exact Hinfer|].
  exact (inferFheType_is_valid decimal_StringToBigInt _ _ Hinfer).
Defined.

(** X8.  For a number or a bigint, [inferFheType] answers the narrowest
    unsigned type that holds the value: no numeric type of [FHE_RANGES]
    whose range contains the value has a smaller maximum.  A negative
    value and a value above 2^64 - 1 have no type: it throws. *)
Theorem inferFheType_narrowest (StringToBigInt : string → option Z)
    (v : value) (z : Z) :
  typeof v = "number" ∨ typeof v = "bigint" →
  BigInt StringToBigInt v = Returns z →
  (0 ≤ z ≤ 18446744073709551615 →
     ∃ type r, Validation.inferFheType StringToBigInt v = Returns type
       ∧ Validation.FHE_RANGES !! type = Some r
       ∧ Validation.min r ≤ z ≤ Validation.max r
       ∧ ∀ type' r', type' ≠ "bool" →
           Validation.FHE_RANGES !! type' = Some r' →
           Validation.min r' ≤ z ≤ Validation.max r' →
           Validation.max r ≤ Validation.max r')
  ∧ (z < 0 → Validation.inferFheType StringToBigInt v
             = Throws (Error "Negative values are not supported"))
  ∧ (18446744073709551615 < z →
       Validation.inferFheType StringToBigInt v
       = Throws (Error "Value too large for supported FHE types")).
Proof.
  intros Htype Hz.
  assert (Validation.inferFheType StringToBigInt v
          = if z <? 0 then Throws (Error "Negative values are not supported")
            else if z <=? 255 then Returns "uint8"
            else if z <=? 65535 then Returns "uint16"
            else if z <=? 4294967295 then Returns "uint32"
            else if z <=? 18446744073709551615 then Returns "uint64"
            else Throws (Error "Value too large for supported FHE types"))
    as Hinfer.
  { unfold Validation.inferFheType.
    destruct v; try (by destruct Htype); by rewrite Hz. }
  split; [|split].
  - intros Hin.
    destruct (Validation.inferFheType StringToBigInt v) as [type|e] eqn:Hv.
    + symmetry in Hinfer.
      apply inferFheType_numeric in Hinfer as (r & _ & Hr & Hrange & Hmin).
      by exists type, r.
    + exfalso. revert Hinfer.
      destruct (Z.ltb_spec z 0); [lia|].
      destruct (Z.leb_spec z 255); [done|].
      destruct (Z.leb_spec z 65535); [done|].
      destruct (Z.leb_spec z 4294967295); [done|].
      destruct (Z.leb_spec z 18446744073709551615); [done|]. lia.
  - intros Hneg. rewrite Hinfer. by destruct (Z.ltb_spec z 0); [|lia].
  - intros Hbig. rewrite Hinfer.
    destruct (Z.ltb_spec z 0); [lia|].
    destruct (Z.leb_spec z 255); [lia|].
    destruct (Z.leb_spec z 65535); [lia|].
    destruct (Z.leb_spec z 4294967295); [lia|].
    destruct (Z.leb_spec z 18446744073709551615); [lia|]. done.
Qed.

Lemma inferFheType_narrowest_witness :
  BigInt decimal_StringToBigInt (VBigInt (-1)) = Returns (-1)
  ∧ -1 < 0
  ∧ Validation.inferFheType decimal_StringToBigInt (VBigInt (-1))
    = Throws (Error "Negative values are not supported").
Proof.
  split; [reflexivity|]. split; [lia|].
  destruct (inferFheType_narrowest decimal_StringToBigInt (VBigInt (-1)) (-1)
              (or_intror eq_refl) eq_refl) as (_ & Hneg & _).
  apply Hneg. lia.
Defined.

Lemma validateHandles_returns (StringToBigInt : string → option Z)
    (handles : list value) (zs : list Z) (index : nat) :
  Validation.validateHandles StringToBigInt index handles = Returns zs
  ↔ Forall2 (λ h z, Validation.validateEncryptedHandle StringToBigInt h = Returns z)
            handles zs.
Proof.
  revert zs index. induction handles as [|h rest IH]; intros zs index; simpl.
  - split; [by intros [= <-]; constructor|by intros ->%Forall2_nil_inv_l].
  - destruct (Validation.validateEncryptedHandle StringToBigInt h) as [z|e] eqn:Hh.
    + destruct (Validation.validateHandles StringToBigInt (S index) rest)
        as [zs'|e'] eqn:Hrest; simpl.
      * split.
        -- intros [= <-]. constructor; [done|]. by apply (IH zs' (S index)).
        -- intros (z' & zs'' & Hz & Hzs & ->)%Forall2_cons_inv_l.
           apply (IH zs'' (S index)) in Hzs. rewrite Hrest in Hzs.
           rewrite Hh in Hz. by simplify_eq.
      * split; [done|].
        intros (z' & zs'' & Hz & Hzs & ->)%Forall2_cons_inv_l.
        apply (IH zs'' (S index)) in Hzs. by rewrite Hrest in Hzs.
    + split; [done|].
      intros (z' & zs'' & Hz & Hzs & ->)%Forall2_cons_inv_l.
      by rewrite Hh in Hz.
Qed.

Lemma validateHandles_throws (StringToBigInt : string → option Z)
    (handles : list value) (index i : nat) (h : value) (e : error) :
  handles !! i = Some h →
  Validation.validateEncryptedHandle StringToBigInt h = Throws e →
  (∀ j h', (j < i)%nat → handles !! j = Some h' →
     is_returns (Validation.validateEncryptedHandle StringToBigInt h') = true) →
  Validation.validateHandles StringToBigInt index handles
  = Throws (Error ("Invalid handle at index " +:+ pretty (index + i)%nat +:+ ": "
                   +:+ error_toString e)).
Proof.
  revert index i. induction handles as [|h0 rest IH]; intros index i Hi He Hbefore;
    [done|].
  destruct i as [|i]; simpl in *.
  - simplify_eq. rewrite He. by rewrite Nat.add_0_r.
  - pose proof (Hbefore 0%nat h0 ltac:(lia) eq_refl) as H0.
    destruct (Validation.validateEncryptedHandle StringToBigInt h0) as [z0|];
      [|done].
    replace (index + S i)%nat with (S index + i)%nat by lia.
    rewrite (IH (S index) i Hi He); [done|].
    intros j h' Hj Hh'. apply (Hbefore (S j) h'); [lia|done].
Qed.

(** X9.  [validateHandleBatch] refuses an empty array; for a non-empty one
    it returns the handles as bigints, one per handle and in order, exactly
    when every handle validates; otherwise it throws for the first handle
    that does not, naming its index and the reason. *)
Theorem validateHandleBatch_all_or_first_error
    (StringToBigInt : string → option Z) (handles : list value) :
  Validation.validateHandleBatch StringToBigInt (Some [])
  = Throws (Error "Handle array cannot be empty")
  ∧ (handles ≠ [] →
     ∀ zs, Validation.validateHandleBatch StringToBigInt (Some handles) = Returns zs
           ↔ Forall2 (λ h z, Validation.validateEncryptedHandle StringToBigInt h
                             = Returns z) handles zs)
  ∧ (∀ i h e,
       handles !! i = Some h →
       Validation.validateEncryptedHandle StringToBigInt h = Throws e →
       (∀ j h', (j < i)%nat → handles !! j = Some h' →
          is_returns (Validation.validateEncryptedHandle StringToBigInt h') = true) →
       Validation.validateHandleBatch StringToBigInt (Some handles)
       = Throws (Error ("Invalid handle at index " +:+ pretty i +:+ ": "
                        +:+ error_toString e))).
Proof.
  split; [done|]. split.
  - intros Hne zs. destruct handles as [|h rest]; [done|].
    apply (validateHandles_returns StringToBigInt (h :: rest) zs 0).
  - intros i h e Hi He Hbefore. destruct handles as [|h0 rest]; [done|].
    apply (validateHandles_throws StringToBigInt (h0 :: rest) 0 i h e Hi He Hbefore).
Qed.

Lemma validateHandleBatch_all_or_first_error_witness :
  Validation.validateHandleBatch decimal_StringToBigInt
    (Some [VString "12"; VBigInt 5; VString "x"; VNull])
  = Throws (Error ("Invalid handle at index " +:+ pretty 2%nat +:+ ": "
                   +:+ error_toString (Error "Invalid encrypted handle format"))).
Proof.
  destruct (validateHandleBatch_all_or_first_error decimal_StringToBigInt
              [VString "12"; VBigInt 5; VString "x"; VNull]) as (_ & _ & Hfirst).
  apply (Hfirst 2%nat (VString "x") _ eq_refl eq_refl).
  intros [|[|j]] h' Hj Hh'; simpl in *; simplify_eq; [reflexivity|reflexivity|lia].
Defined.

(* ================================================================== *)
(** ** core/decryption.ts: outcomes of the remote calls *)
(* ================================================================== *)

(** X10.  [decrypt] resolves with [z] exactly when the gateway answers the
    request with an ok response whose JSON body has a [value] that [BigInt]
    converts to [z].  A response that is not ok rejects with the status
    text wrapped twice, a transport failure with its error wrapped once. *)
Theorem decrypt_outcome (net : Js.network) (StringToBigInt : string → option Z)
    (c : Decryption.client) (handle : Z) (permit : Decryption.DecryptionPermit) :
  let answer := net [decrypt_request c handle permit] in
  let outcome := result (Decryption.decrypt net StringToBigInt c handle permit) in
  (∀ z, outcome = Returns z
        ↔ ∃ response data v,
            answer = Returns response ∧ ok response = true
            ∧ response_json response = Returns data
            ∧ get data "value" = Returns v
            ∧ BigInt StringToBigInt v = Returns z)
  ∧ (∀ response, answer = Returns response → ok response = false →
       outcome = Throws (Error ("Failed to decrypt value: "
                    +:+ error_toString
                          (Error ("Decryption failed: " +:+ statusText response)))))
  ∧ (∀ e, answer = Throws e →
       outcome = Throws (Error ("Failed to decrypt value: " +:+ error_toString e))).
Proof.
  intros answer outcome.
  assert (outcome
          = match answer with
            | Returns response =>
                if ok response then
                  match response_json response with
                  | Returns data =>
                      match get data "value" with
                      | Returns v =>
                          match BigInt StringToBigInt v with
                          | Returns z => Returns z
                          | Throws e =>
                              Throws (Error ("Failed to decrypt value: "
                                             +:+ error_toString e))
                          end
                      | Throws e =>
                          Throws (Error ("Failed to decrypt value: "
                                         +:+ error_toString e))
                      end
                  | Throws e =>
                      Throws (Error ("Failed to decrypt value: " +:+ error_toString e))
                  end
                else Throws (Error ("Failed to decrypt value: "
                       +:+ error_toString
                             (Error ("Decryption failed: " +:+ statusText response))))
            | Throws e =>
                Throws (Error ("Failed to decrypt value: " +:+ error_toString e))
            end) as Hout.
  { unfold outcome, answer, result, Decryption.decrypt, try_catch, bind, fetch,
      call, lift, throw, decrypt_request, Decryption.json_headers. simpl.
    destruct (net _) as [response|]; [|done].
    destruct (ok response); [|done]. simpl.
    destruct (response_json response) as [data|]; [|done].
    destruct (get data "value") as [v|]; [|done].
    by destruct (BigInt StringToBigInt v). }
  rewrite Hout. split; [|split].
  - intros z. split.
    + destruct answer as [response|]; [|done].
      destruct (ok response) eqn:Hok; [|done].
      destruct (response_json response) as [data|] eqn:Hdata; [|done].
      destruct (get data "value") as [v|] eqn:Hv; [|done].
      destruct (BigInt StringToBigInt v) eqn:Hz; [|done].
      intros [= <-]. by exists response, data, v.
    + intros (response & data & v & -> & -> & -> & -> & ->). done.
  - intros response -> ->. done.
  - intros e ->. done.
Qed.

Lemma decrypt_outcome_witness :
  picky_gateway [decrypt_request sample_client 13 unsigned_permit]
  = Returns {| ok := false; statusText := "Forbidden";
               response_json := Returns JsonNull |}
  ∧ result (Decryption.decrypt picky_gateway decimal_StringToBigInt sample_client
              13 unsigned_permit)
    = Throws (Error ("Failed to decrypt value: "
                +:+ error_toString (Error ("Decryption failed: " +:+ "Forbidden")))).
Proof.
  split; [reflexivity|].
  destruct (decrypt_outcome picky_gateway decimal_StringToBigInt sample_client 13
              unsigned_permit) as (_ & Hrefused & _).
  apply (Hrefused _ eq_refl eq_refl).
Defined.

(** X11.  [revokePermit] sends exactly one POST to
    [{gatewayUrl}/permit/revoke] with the permit's signature and public
    key, and resolves exactly when the response is ok; a refusal or a
    transport failure makes it throw. *)
Theorem revokePermit_outcome (net : Js.network) (c : Decryption.client)
    (permit : Decryption.DecryptionPermit) :
  let answer := net [revoke_request c permit] in
  calls (Decryption.revokePermit net c permit) = [revoke_request c permit]
  ∧ (result (Decryption.revokePermit net c permit) = Returns ()
     ↔ ∃ response, answer = Returns response ∧ ok response = true)
  ∧ (∀ response, answer = Returns response → ok response = false →
       result (Decryption.revokePermit net c permit)
       = Throws (Error ("Failed to revoke permit: "
                   +:+ error_toString
                         (Error ("Failed to revoke permit: "
                                 +:+ statusText response)))))
  ∧ (∀ e, answer = Throws e →
       result (Decryption.revokePermit net c permit)
       = Throws (Error ("Failed to revoke permit: " +:+ error_toString e))).
Proof.
  intros answer.
  unfold answer, calls, result, Decryption.revokePermit, try_catch, bind, fetch,
    call, throw, ret, revoke_request, Decryption.json_headers. simpl.
  destruct (net _) as [response|e0]; simpl.
  - destruct (ok response) eqn:Hok; simpl.
    + split; [done|]. split; [|split].
      * split; [by exists response|done].
      * intros ? [= <-] ?. congruence.
      * done.
    + split; [done|]. split; [|split].
      * split; [done|]. intros (? & [= <-] & ?). congruence.
      * by intros ? [= <-] _.
      * done.
  - split; [done|]. split; [|split].
    + split; [done|]. by intros (? & ? & _).
    + done.
    + by intros ? [= <-].
Qed.

Lemma revokePermit_outcome_witness :
  obliging_gateway [revoke_request sample_client expired_permit]
  = Returns {| ok := true; statusText := "OK";
               response_json :=
                 Returns (JsonObject {[ "value" := VString "42";
                                        "valid" := VBool true ]}) |}
  ∧ result (Decryption.revokePermit obliging_gateway sample_client expired_permit)
    = Returns ().
Proof.
  split; [reflexivity|].
  destruct (revokePermit_outcome obliging_gateway sample_client expired_permit)
    as (_ & Hok & _).
  apply Hok. eexists. split; reflexivity.
Defined.

(* ================================================================== *)
(** ** core/decryption.ts: the address a decryption yields *)
(* ================================================================== *)

Lemma string_length_app (s1 s2 : string) :
  String.length (s1 +:+ s2) = (String.length s1 + String.length s2)%nat.
Proof. induction s1 as [|c s1 IH]; simpl; [done|by rewrite IH]. Qed.

Lemma all_chars_app (p : ascii → bool) (s1 s2 : string) :
  Validation.all_chars p (s1 +:+ s2)
  = Validation.all_chars p s1 && Validation.all_chars p s2.
Proof.
  induction s1 as [|c s1 IH]; simpl; [done|]. by rewrite IH, andb_assoc.
Qed.

Lemma repeat_char_length (n : nat) (c : ascii) :
  String.length (repeat_char n c) = n.
Proof. induction n as [|n IH]; simpl; [done|by rewrite IH]. Qed.

Lemma repeat_char_all (p : ascii → bool) (n : nat) (c : ascii) :
  p c = true → Validation.all_chars p (repeat_char n c) = true.
Proof. intros Hc. induction n as [|n IH]; simpl; [done|by rewrite Hc, IH]. Qed.

Lemma isHexDigit_hex_digit (d : Z) :
  0 ≤ d < 16 → Validation.isHexDigit (hex_digit d) = true.
Proof.
  intros Hd.
  assert (d = 0 ∨ d = 1 ∨ d = 2 ∨ d = 3 ∨ d = 4 ∨ d = 5 ∨ d = 6 ∨ d = 7
          ∨ d = 8 ∨ d = 9 ∨ d = 10 ∨ d = 11 ∨ d = 12 ∨ d = 13 ∨ d = 14
          ∨ d = 15) as H by lia.
  repeat (destruct H as [->|H]; [reflexivity|]). by subst.
Qed.

Lemma pow16_succ (k : nat) : 16 ^ Z.of_nat (S k) = 16 * 16 ^ Z.of_nat k.
Proof. rewrite Nat2Z.inj_succ. apply Z.pow_succ_r. lia. Qed.

Lemma hex_digits_all_hex (fuel : nat) (n : Z) (acc : string) :
  Validation.all_chars Validation.isHexDigit acc = true →
  Validation.all_chars Validation.isHexDigit (hex_digits fuel n acc) = true.
Proof.
  revert n acc. induction fuel as [|fuel IH]; intros n acc Hacc; simpl; [done|].
  assert (Validation.all_chars Validation.isHexDigit
            (String (hex_digit (n `mod` 16)) acc) = true) as Hacc'.
  { simpl. rewrite Hacc, isHexDigit_hex_digit; [done|]. by apply Z.mod_pos_bound. }
  destruct (n `div` 16 =? 0); [done|]. by apply IH.
Qed.

Lemma hex_digits_short (fuel : nat) (n : Z) (acc : string) (k : nat) :
  0 ≤ n < 16 ^ Z.of_nat fuel → n < 16 ^ Z.of_nat k → (1 ≤ k)%nat →
  (String.length (hex_digits fuel n acc) ≤ k + String.length acc)%nat.
Proof.
  revert n acc k. induction fuel as [|fuel IH]; intros n acc k Hn Hk Hk1; simpl.
  - lia.
  - destruct (Z.eqb_spec (n `div` 16) 0) as [|Hdiv]; simpl; [lia|].
    rewrite pow16_succ in Hn.
    destruct k as [|k]; [lia|]. rewrite pow16_succ in Hk.
    assert (0 < n `div` 16) as Hpos.
    { pose proof (Z.div_pos n 16). lia. }
    assert (n `div` 16 < 16 ^ Z.of_nat k) as Hk'
      by (apply Z.div_lt_upper_bound; lia).
    assert (1 ≤ k)%nat as Hk1'.
    { destruct k; [|lia]. simpl in Hk'. lia. }
    pose proof (IH (n `div` 16) (String (hex_digit (n `mod` 16)) acc) k) as H.
    simpl in H. etrans; [apply H|lia]; [|done|done].
    split; [lia|]. apply Z.div_lt_upper_bound; lia.
Qed.

Lemma hex_digits_long (k fuel : nat) (n : Z) (acc : string) :
  (k < fuel)%nat → 16 ^ Z.of_nat k ≤ n →
  (k + 1 + String.length acc ≤ String.length (hex_digits fuel n acc))%nat.
Proof.
  revert fuel n acc. induction k as [|k IH]; intros fuel n acc Hfuel Hn;
    (destruct fuel as [|fuel]; [lia|]); simpl.
  - destruct (n `div` 16 =? 0); simpl; [lia|].
    clear. revert n acc. induction fuel as [|fuel IH']; intros n acc; simpl; [lia|].
    destruct (_ =? 0); simpl; [lia|]. etrans; [|apply IH']. simpl. lia.
  - rewrite pow16_succ in Hn.
    assert (16 ^ Z.of_nat k ≤ n `div` 16) as Hn'
      by (apply Z.div_le_lower_bound; lia).
    assert (0 < 16 ^ Z.of_nat k) by (apply Z.pow_pos_nonneg; lia).
    destruct (Z.eqb_spec (n `div` 16) 0) as [|_]; [lia|].
    etrans; [|apply IH; [lia|done]]. simpl. lia.
Qed.

Lemma hex_fuel_enough (n : Z) :
  0 < n → n < 16 ^ Z.of_nat (S (Z.to_nat (Z.log2 n))).
Proof.
  intros Hn. pose proof (Z.log2_nonneg n) as Hlog.
  destruct (Z.log2_spec n Hn) as [_ Hup].
  rewrite Nat2Z.inj_succ, Z2Nat.id by done.
  eapply Z.lt_le_trans; [exact Hup|].
  change 16 with (2 ^ 4). rewrite <- Z.pow_mul_r by lia.
  apply Z.pow_le_mono_r; lia.
Qed.

Lemma address_regex_after_0x (rest : string) :
  Validation.address_regex_test ("0x" +:+ rest)
  = (String.length rest =? 40)%nat && Validation.all_chars Validation.isHexDigit rest.
Proof. reflexivity. Qed.

(** The string [decryptAddress] makes of a decrypted value. *)
Lemma address_of_value_valid (v : Z) :
  Security.isValidAddress ("0x" +:+ padStart 40 "0"%char (toString16 v))
  = bool_decide (0 ≤ v < 2 ^ 160).
Proof.
  unfold Security.isValidAddress. rewrite address_regex_after_0x.
  unfold padStart, toString16.
  destruct (Z.eqb_spec v 0) as [->|Hv0]; [done|].
  destruct (Z.ltb_spec v 0) as [Hneg|Hpos].
  - rewrite bool_decide_eq_false_2 by lia.
    rewrite all_chars_app. cbn [Validation.all_chars].
    replace (Validation.isHexDigit "-"%char) with false by done.
    by rewrite andb_false_l, !andb_false_r.
  - set (digits := hex_digits _ v "").
    assert (Validation.all_chars Validation.isHexDigit digits = true) as Hhex
      by by apply hex_digits_all_hex.
    destruct (decide (v < 2 ^ 160)) as [Hsmall|Hbig].
    + rewrite bool_decide_eq_true_2 by lia.
      assert (String.length digits ≤ 40)%nat as Hlen.
      { pose proof (hex_digits_short (S (Z.to_nat (Z.log2 v))) v "" 40) as H.
        simpl String.length in H. rewrite Nat.add_0_r in H. apply H; [|done|lia].
        split; [lia|]. apply hex_fuel_enough. lia. }
      rewrite string_length_app, repeat_char_length, all_chars_app,
        repeat_char_all, Hhex by done.
      replace (40 - String.length digits + String.length digits)%nat
        with 40%nat by lia.
      done.
    + rewrite bool_decide_eq_false_2 by lia.
      assert (41 ≤ String.length digits)%nat as Hlen.
      { pose proof (hex_digits_long 40 (S (Z.to_nat (Z.log2 v))) v "") as H.
        simpl String.length in H. rewrite Nat.add_0_r in H. apply H; [|lia].
        assert (160 ≤ Z.log2 v).
        { change 160 with (Z.log2 (2 ^ 160)). apply Z.log2_le_mono. lia. }
        lia. }
      rewrite string_length_app, repeat_char_length.
      replace (40 - String.length digits)%nat with 0%nat by lia.
      destruct (Nat.eqb_spec (0 + String.length digits) 40); [lia|done].
Qed.

(** X12.  [decryptAddress] sends the one request of [decrypt] and fails
    when [decrypt] fails; of a decrypted value [v] it makes a well-formed
    address (one that [isValidAddress] accepts) exactly when
    [0 <= v < 2^160]: a larger value gives more than forty digits, a
    negative one a minus sign. *)
Theorem decryptAddress_well_formed (net : Js.network)
    (StringToBigInt : string → option Z) (c : Decryption.client)
    (handle : Z) (permit : Decryption.DecryptionPermit) :
  calls (Decryption.decryptAddress net StringToBigInt c handle permit)
  = [decrypt_request c handle permit]
  ∧ match result (Decryption.decrypt net StringToBigInt c handle permit) with
    | Returns v =>
        ∃ a, result (Decryption.decryptAddress net StringToBigInt c handle permit)
             = Returns a
             ∧ Security.isValidAddress a = bool_decide (0 ≤ v < 2 ^ 160)
    | Throws e =>
        result (Decryption.decryptAddress net StringToBigInt c handle permit)
        = Throws e
    end.
Proof.
  pose proof (decrypt_trace net StringToBigInt c handle permit []) as Htr.
  unfold calls, result, Decryption.decryptAddress, bind, ret.
  destruct (Decryption.decrypt net StringToBigInt c handle permit [])
    as [tr [v|e]]; simpl in *; subst tr.
  - split; [done|]. eexists. split; [done|]. apply address_of_value_valid.
  - done.
Qed.

(* ================================================================== *)
(** ** core/client.ts: what creating a client leaves untouched *)
(* ================================================================== *)

Lemma keeps_initializeFhevm (P : gmap positive Client.NetworkConfig → Prop)
    (env : Client.environment) :
  keeps P (Client.initializeFhevm env).
Proof. intros st HP. by rewrite initializeFhevm_heap. Qed.

Lemma keeps_throw {A} (P : gmap positive Client.NetworkConfig → Prop) (e : error) :
  keeps P (throw (A := A) e).
Proof. by intros st HP. Qed.

(** X13.  Without a [gatewayUrl] and an [aclAddress] in its configuration
    (absent or empty), [createFhevmClient] writes to no network
    configuration at all, whatever the network, the environment and the
    outcome: the registry and the caller's objects are as before. *)
Theorem createFhevmClient_without_override_writes_nothing
    (env : Client.environment) (config : Client.FhevmClientConfig)
    (st : Client.state) :
  Client.given (Client.cfg_gatewayUrl config) = None →
  Client.given (Client.cfg_aclAddress config) = None →
  Client.heap (Client.createFhevmClient env config st).1 = Client.heap st.
Proof.
  intros Hg Ha.
  assert (keeps (λ h, h = Client.heap st) (Client.createFhevmClient env config))
    as Hkeeps; [|exact (Hkeeps st eq_refl)].
  unfold Client.createFhevmClient. rewrite Hg, Ha.
  apply keeps_bind; [apply keeps_initializeFhevm|]. intros _.
  apply keeps_bind.
  { destruct (Client.cfg_network config) as [name|r]; [|apply keeps_ret].
    destruct (Client.NETWORKS !! name); [apply keeps_ret|apply keeps_throw]. }
  intros r. apply keeps_bind; [apply keeps_ret|]. intros _.
  apply keeps_bind; [apply keeps_ret|]. intros _.
  apply keeps_bind; [apply keeps_read|]. intros cfg.
  apply keeps_bind.
  { destruct (Client.given (Client.cfg_privateKey config)); [apply keeps_ret|].
    destruct (Client.cfg_provider config); [|apply keeps_ret].
    apply keeps_bind; [apply keeps_pure|]. intros a. apply keeps_ret. }
  intros pa. apply keeps_bind; [apply keeps_fetchPublicKey|]. intros publicKey.
  apply keeps_bind; [apply keeps_pure|]. intros inst. apply keeps_ret.
Qed.

Lemma createFhevmClient_without_override_writes_nothing_witness :
  Client.heap (Client.createFhevmClient working_environment plain_config
                 Client.initial_state).1
  = Client.initial_heap.
Proof.
  apply (createFhevmClient_without_override_writes_nothing working_environment
           plain_config Client.initial_state eq_refl eq_refl).
Defined.



Lemma through_begins (c : Encryption.client) (add : CryptoCall) :
  head (Encryption.through c add).1
  = Some (createEncryptedInput (Client.aclAddress (Client.network c))
                               (Client.address c)).
Proof.
  unfold Encryption.through, Encryption.new_input, Encryption.on_instance,
    bind, call; simpl.
  destruct (respond _ [_]); simpl; [|done].
  by destruct (respond _ [_; _]).
Qed.

(** X15.  A client created from a private key has no address (and a
    JSON-RPC provider on the network's [rpcUrl]; the signer is not asked):
    every encryption made with it starts an input for the user
    [undefined]. *)
Theorem createFhevmClient_privateKey_has_no_address (env : Client.environment)
    (config : Client.FhevmClientConfig) (st st' : Client.state)
    (client : Client.FhevmClient positive) (key : string) :
  Client.given (Client.cfg_privateKey config) = Some key →
  Client.createFhevmClient env config st = (st', Returns client) →
  Client.address client = None
  ∧ (∃ cfg, Client.heap st' !! Client.network client = Some cfg
            ∧ Client.provider client = Client.JsonRpcProvider (Client.rpcUrl cfg))
  ∧ ∀ c add, Client.deref (Client.heap st') client = Some c →
      head (Encryption.through c add).1
      = Some (createEncryptedInput (Client.aclAddress (Client.network c)) None).
Proof.
  intros Hkey Hrun.
  assert (Client.address client = None
          ∧ ∃ cfg, Client.heap st' !! Client.network client = Some cfg
                   ∧ Client.provider client
                     = Client.JsonRpcProvider (Client.rpcUrl cfg)) as [Haddr Hprov].
  { revert Hrun. unfold Client.createFhevmClient. rewrite Hkey.
    do 4 (unfold bind at 1;
          lazymatch goal with
          | |- (match ?x with pair _ _ => _ end) = _ → _ =>
              destruct x as [? [?|?]]; [|done]
          end).
    unfold bind at 1. unfold Client.read at 1.
    lazymatch goal with
    | |- context [Client.heap ?s !! ?r] =>
        destruct (Client.heap s !! r) as [cfg|] eqn:Hcfg; [|done];
        pose proof (keeps_fetchPublicKey (λ h, h !! r = Some cfg) env
                      (Client.gatewayUrl cfg) s Hcfg) as Hkeep
    end.
    unfold bind at 1. unfold ret at 1. unfold bind at 1.
    destruct (Client.fetchPublicKey env (Client.gatewayUrl cfg) _)
      as [st5 [publicKey|]]; [|done].
    unfold bind, lift, ret.
    destruct (Client.createInstance env _) as [inst|]; [|done].
    intros [= <- <-]. simpl. split; [done|]. by exists cfg. }
  split; [exact Haddr|]. split; [exact Hprov|].
  intros c add Hc. rewrite through_begins.
  unfold Client.deref in Hc.
  destruct (Client.heap st' !! Client.network client); simplify_eq/=.
  by rewrite Haddr.
Qed.

Lemma createFhevmClient_privateKey_has_no_address_witness :
  ∃ st' client,
    Client.createFhevmClient working_environment node_config Client.initial_state
    = (st', Returns client)
    ∧ Client.address client = None.
Proof.
  eexists _, _. split; [reflexivity|].
  eapply (createFhevmClient_privateKey_has_no_address working_environment
            node_config Client.initial_state _ _ "0xkey" eq_refl).
  reflexivity.
Defined.

(* ================================================================== *)
(** ** utils/security.ts: permit shape and namespaced storage *)
(* ================================================================== *)



Lemma string_app_inj (p a b : string) :
  p +:+ a = p +:+ b → a = b.
Proof.
  induction p as [|c p IH]; intros H; [exact H|].
  change (String c (p +:+ a) = String c (p +:+ b)) in H.
  apply IH. by injection H.
Qed.

Lemma startsWith_app (prefix key : string) :
  startsWith (prefix +:+ key) prefix = true.
Proof.
  unfold startsWith. induction prefix as [|c prefix IH];
    [by destruct key|].
  change (String.prefix (String c prefix) (String c (prefix +:+ key)) = true).
  simpl. by destruct (ascii_dec c c).
Qed.

Lemma clear_fold_lookup (prefix : string) (items : gmap string string)
    (keys : list string) (key : string) :
  foldr (λ k items', if startsWith k prefix then delete k items' else items')
        items keys !! key
  = if decide (key ∈ keys ∧ startsWith key prefix = true) then None
    else items !! key.
Proof.
  induction keys as [|k keys IH]; cbn [foldr].
  - destruct (decide _) as [[H _]|_]; [by apply elem_of_nil in H|done].
  - destruct (startsWith k prefix) eqn:Hk.
    + rewrite lookup_delete. destruct (decide (k = key)) as [->|Hne].
      * rewrite decide_True; [done|]. split; [left|done].
      * rewrite IH.
        destruct (decide (key ∈ keys ∧ startsWith key prefix = true))
          as [[Hin Hp]|Hn].
        -- rewrite decide_True; [done|]. split; [by right|done].
        -- rewrite decide_False; [done|].
           intros [[->|Hin]%elem_of_cons Hp]; [done|]. by apply Hn.
    + rewrite IH.
      destruct (decide (key ∈ keys ∧ startsWith key prefix = true))
        as [[Hin Hp]|Hn].
      * rewrite decide_True; [done|]. split; [by right|done].
      * rewrite decide_False; [done|].
        intros [[->|Hin]%elem_of_cons Hp]; [congruence|]. by apply Hn.
Qed.

Section StorageFacts.
Context {A : Type} (stringify : A → outcome string) (parse : string → outcome A).

(** X17.  A value that [JSON.stringify] writes as a non-empty text which
    [JSON.parse] reads back is what [get] returns after [set], under the
    same key; the other keys of the storage answer as before, and after
    [remove] the key answers [null].  Where there is no [localStorage],
    [set] stores nothing and [get] answers [null]. *)
Theorem SecureStorage_set_get (prefix key : string) (v : A) (serialized : string)
    (items : gmap string string) :
  stringify v = Returns serialized →
  serialized ≠ "" →
  parse serialized = Returns v →
  let stored := (Security.storage_set stringify prefix key v (Some items)).1 in
  Security.storage_get parse prefix key stored = Returns (Some v)
  ∧ (∀ key', key' ≠ key →
       Security.storage_get parse prefix key' stored
       = Security.storage_get parse prefix key' (Some items))
  ∧ Security.storage_get parse prefix key
      (Security.storage_remove prefix key stored) = Returns None
  ∧ Security.storage_get parse prefix key
      (Security.storage_set stringify prefix key v None).1 = Returns None.
Proof.
  intros Hs Hne Hp stored. unfold stored, Security.storage_set. rewrite Hs. simpl.
  split; [|split; [|split]].
  - unfold Security.storage_get. rewrite lookup_insert_eq.
    destruct (decide (serialized = "")); [done|]. by rewrite Hp.
  - intros key' Hkey. unfold Security.storage_get.
    rewrite lookup_insert_ne; [done|]. by intros ?%string_app_inj.
  - unfold Security.storage_get, Security.storage_remove.
    by rewrite lookup_delete_eq.
  - done.
Qed.

(** X18.  [clear()] removes every key of the storage that begins with the
    prefix and no other: afterwards [get] answers [null] for every key of
    the namespace, and the entries outside it are untouched (those of a
    namespace whose prefix extends this one are removed with it). *)
Theorem SecureStorage_clear_scoped (prefix : string) (items : gmap string string) :
  ∃ cleared, Security.storage_clear prefix (Some items) = Some cleared
    ∧ (∀ fullKey, cleared !! fullKey
                  = if startsWith fullKey prefix then None else items !! fullKey)
    ∧ (∀ key, Security.storage_get parse prefix key (Some cleared) = Returns None)
    ∧ Security.storage_clear prefix (Some cleared) = Some cleared.
Proof.
  assert (∀ m : gmap string string, ∀ fullKey,
            foldr (λ k items', if startsWith k prefix then delete k items'
                               else items') m (elements (dom m)) !! fullKey
            = if startsWith fullKey prefix then None else m !! fullKey) as Hlookup.
  { intros m fullKey. rewrite clear_fold_lookup.
    destruct (startsWith fullKey prefix) eqn:Hk.
    - case_decide as H; [done|].
      destruct (m !! fullKey) eqn:Hm; [|done].
      destruct H. split; [|done].
      apply elem_of_elements, elem_of_dom. by eexists.
    - case_decide as H; [|done]. by destruct H. }
  eexists. split; [reflexivity|]. split; [apply Hlookup|]. split.
  - intros key. unfold Security.storage_get.
    by rewrite Hlookup, startsWith_app.
  - unfold Security.storage_clear. f_equal. apply map_eq. intros fullKey.
    rewrite !Hlookup. by destruct (startsWith fullKey prefix).
Qed.
End StorageFacts.

Lemma SecureStorage_set_get_witness :
  Security.storage_get parse_Z "fhevm_" "balance"
    (Security.storage_set stringify_Z "fhevm_" "balance" 42
       (Some {[ "other" := "1" ]})).1
  = Returns (Some 42).
Proof.
  apply (SecureStorage_set_get stringify_Z parse_Z "fhevm_" "balance" 42 "42"
           {[ "other" := "1" ]} eq_refl).
  - discriminate.
  - reflexivity.
Defined.

(* ================================================================== *)
(** ** core/decryption.ts: the requests of a batch *)
(* ================================================================== *)

(** X19.  [decryptBatch] sends one request per handle, in the order of the
    handles, whatever the gateway answers: a failed decryption does not
    stop the requests for the handles after it.  For no handle at all it
    sends nothing and resolves with the empty array. *)
Theorem decryptBatch_requests (net : Js.network)
    (StringToBigInt : string → option Z) (settled : list nat)
    (c : Decryption.client) (handles : list Z)
    (permit : Decryption.DecryptionPermit) :
  calls (Decryption.decryptBatch net StringToBigInt settled c handles permit)
  = (λ h, decrypt_request c h permit) <$> handles
  ∧ Decryption.decryptBatch net StringToBigInt settled c [] permit []
    = ([], Returns []).
Proof.
  split.
  - destruct (decryptionPromises_spec net StringToBigInt c permit handles [])
      as (Htr & _ & _).
    unfold calls, Decryption.decryptBatch.
    by destruct (Decryption.decryptionPromises _ _ _ _ _ _).
  - unfold Decryption.decryptBatch. simpl. f_equal.
    by apply (Promise_all_resolves settled (@nil (outcome Z))).
Qed.

Lemma encrypt_calls_in_range_witness :
  add8 (of_Z 250) ∈ calls (Encryption.encrypt sample_client (VNumber (of_Z 250)))
  ∧ in_range_call (add8 (of_Z 250)) = true.
Proof.
  assert (add8 (of_Z 250)
          ∈ calls (Encryption.encrypt sample_client (VNumber (of_Z 250)))) as Hin.
  { unfold calls. vm_compute. right. left. }
  split; [exact Hin|].
  destruct (encrypt_calls_in_range sample_client) as [Hall _].
  exact (Hall _ _ Hin).
Defined.
